(** * MCP XML bridge: a shallow embedding of [internal/mcp/xml_bridge.go]

    The Go package is embedded function by function.  Go strings are byte
    sequences and are modelled as [list ascii]; the process-wide counter
    [mcpToolUseIDCounter] is threaded explicitly as a [Z] wrapped at 2^64;
    a run-time panic of the Go program is an explicit [Panic] outcome.

    The Go standard-library calls the package makes ([strings], [regexp] for
    the two fixed patterns, [encoding/json] for the one target type
    [map[string]interface{}] and, on the writing side, for a map of strings
    and booleans) are modelled in the modules [strings], [regexp] and [json]
    below, from the documented behaviour of the library.  The encoder's
    output for backspace and form feed changed with Go 1.22; the model takes
    the toolchain's choice as the argument [short_bf], and what is proved of
    the encoder holds for both.

    Tool names are taken to be text: valid UTF-8 without the replacement
    character U+FFFD.  On such names the bytewise matching of the module
    [regexp] is what the compiled patterns do on any input (a literal starts
    with the ASCII byte [<], so it can only match at a rune boundary), and
    [regexp.MustCompile] succeeds. *)

From Stdlib Require Import Ascii String ZArith NArith Lia Bool Arith.
From Stdlib Require Import List.
From Stdlib Require Import DecimalString.
From Stdlib Require DecimalN DecimalFacts.
Import ListNotations.
Open Scope list_scope.
Open Scope nat_scope.

(** A Go [string]: an immutable sequence of bytes. *)
Definition gostring : Type := list ascii.

Definition str (s : string) : gostring := list_ascii_of_string s.
Arguments str s%_string.

Definition gostring_eqb (a b : gostring) : bool :=
  if list_eq_dec ascii_dec a b then true else false.

Definition is_empty (s : gostring) : bool :=
  match s with [] => true | _ :: _ => false end.

(** The double-quote byte, written by its code. *)
Definition DQUOTE : ascii := "034"%char.

(** ** Outcomes: normal return, Go run-time panic, or an exhausted loop budget *)

Inductive outcome (A : Type) : Type :=
| Done (a : A)
| Panic (msg : string)
| OutOfFuel.
Arguments Done {A} a.
Arguments Panic {A} msg.
Arguments OutOfFuel {A}.

Definition bind {A B : Type} (m : outcome A) (k : A -> outcome B) : outcome B :=
  match m with
  | Done a => k a
  | Panic msg => Panic msg
  | OutOfFuel => OutOfFuel
  end.

Notation "x <- m ;; k" := (bind m (fun x => k))
  (at level 61, m at next level, right associativity).

(** [s[lo:hi]]: Go panics when the bounds are not [lo <= hi <= len(s)]. *)
Definition slice (s : gostring) (lo hi : nat) : outcome gostring :=
  if (lo <=? hi) && (hi <=? length s)
  then Done (firstn (hi - lo) (skipn lo s))
  else Panic "slice bounds out of range".

(** ** Package [strings] *)

Module strings.

(** [strings.HasPrefix(s, prefix)]. *)
Fixpoint HasPrefix (s prefix : gostring) {struct prefix} : bool :=
  match prefix with
  | [] => true
  | p :: prefix' =>
      match s with
      | [] => false
      | c :: s' => Ascii.eqb c p && HasPrefix s' prefix'
      end
  end.

(** [strings.Index(s, substr)]: the first index of [substr] in [s];
    [None] stands for Go's [-1]. *)
Fixpoint Index (s substr : gostring) : option nat :=
  if HasPrefix s substr then Some 0
  else match s with
       | [] => None
       | _ :: s' => option_map S (Index s' substr)
       end.

(** [strings.LastIndex(s, substr)]: the last index, [None] for [-1]. *)
Fixpoint LastIndex (s substr : gostring) : option nat :=
  match s with
  | [] => if is_empty substr then Some 0 else None
  | _ :: s' =>
      match LastIndex s' substr with
      | Some i => Some (S i)
      | None => if HasPrefix s substr then Some 0 else None
      end
  end.

(** The six ASCII bytes of Go's [asciiSpace] table. *)
Definition asciiSpace (c : ascii) : bool :=
  Ascii.eqb c "009"%char || Ascii.eqb c "010"%char || Ascii.eqb c "011"%char
  || Ascii.eqb c "012"%char || Ascii.eqb c "013"%char || Ascii.eqb c " "%char.

(** The remaining code points of [unicode.IsSpace], by their UTF-8
    encodings: U+0085, U+00A0 (two bytes); U+1680, U+2000..U+200A, U+2028,
    U+2029, U+202F, U+205F, U+3000 (three bytes). *)
Definition space2 (b1 b2 : ascii) : bool :=
  Ascii.eqb b1 "194"%char
  && (Ascii.eqb b2 "133"%char || Ascii.eqb b2 "160"%char).

Definition space3 (b1 b2 b3 : ascii) : bool :=
  (Ascii.eqb b1 "225"%char && Ascii.eqb b2 "154"%char
   && Ascii.eqb b3 "128"%char)
  || (Ascii.eqb b1 "226"%char && Ascii.eqb b2 "128"%char
      && (((128 <=? N_of_ascii b3)%N && (N_of_ascii b3 <=? 138)%N)
          || Ascii.eqb b3 "168"%char || Ascii.eqb b3 "169"%char
          || Ascii.eqb b3 "175"%char))
  || (Ascii.eqb b1 "226"%char && Ascii.eqb b2 "129"%char
      && Ascii.eqb b3 "159"%char)
  || (Ascii.eqb b1 "227"%char && Ascii.eqb b2 "128"%char
      && Ascii.eqb b3 "128"%char).

(** [TrimLeftFunc(s, unicode.IsSpace)]: drop leading white-space runes. *)
Fixpoint TrimLeftSpace (s : gostring) : gostring :=
  match s with
  | [] => []
  | b1 :: r1 =>
      if asciiSpace b1 then TrimLeftSpace r1
      else match r1 with
           | [] => s
           | b2 :: r2 =>
               if space2 b1 b2 then TrimLeftSpace r2
               else match r2 with
                    | [] => s
                    | b3 :: r3 =>
                        if space3 b1 b2 b3 then TrimLeftSpace r3 else s
                    end
           end
  end.

(** The same scan on the reversed string, for the right end: the encodings
    are met last byte first. *)
Fixpoint TrimLeftSpaceRev (s : gostring) : gostring :=
  match s with
  | [] => []
  | b1 :: r1 =>
      if asciiSpace b1 then TrimLeftSpaceRev r1
      else match r1 with
           | [] => s
           | b2 :: r2 =>
               if space2 b2 b1 then TrimLeftSpaceRev r2
               else match r2 with
                    | [] => s
                    | b3 :: r3 =>
                        if space3 b3 b2 b1 then TrimLeftSpaceRev r3 else s
                    end
           end
  end.

Definition TrimRightSpace (s : gostring) : gostring :=
  rev (TrimLeftSpaceRev (rev s)).

(** [strings.TrimSpace(s)]. *)
Definition TrimSpace (s : gostring) : gostring :=
  TrimRightSpace (TrimLeftSpace s).

Definition lower_byte (c : ascii) : ascii :=
  let n := N_of_ascii c in
  if ((65 <=? n) && (n <=? 90))%N then ascii_of_N (n + 32) else c.

(** [strings.ToLower(s)], exact on ASCII strings; bytes from 0x80 on are
    kept as they are, where Go maps the runes to their lower case.  The
    package only compares the result with the ASCII words ["0"], ["false"],
    ["no"] and ["off"], and for that the two agree on every string: the only
    runes outside ASCII whose lower case is in ASCII are U+0130 and U+212A,
    which give [i] and [k], letters of none of the four words; so Go's result
    is one of the words exactly when the string is ASCII and its bytewise
    lower case is that word. *)
Definition ToLower (s : gostring) : gostring := map lower_byte s.

(** [strings.Join(elems, sep)]. *)
Fixpoint Join (elems : list gostring) (sep : gostring) : gostring :=
  match elems with
  | [] => []
  | [a] => a
  | a :: rest => a ++ sep ++ Join rest sep
  end.

(** [a < b] on strings: bytewise lexicographic order. *)
Fixpoint less (a b : gostring) : bool :=
  match a, b with
  | _, [] => false
  | [], _ :: _ => true
  | x :: a', y :: b' =>
      (N_of_ascii x <? N_of_ascii y)%N
      || (N_of_ascii x =? N_of_ascii y)%N && less a' b'
  end.

End strings.

(** ** Package [regexp]: the two patterns of [TryParseMcpToolCallXml] *)

Module regexp.

(** The class [\s] of Go's regexp syntax: tab, newline, form feed, carriage
    return and space. *)
Definition re_space (c : ascii) : bool :=
  Ascii.eqb c "009"%char || Ascii.eqb c "010"%char || Ascii.eqb c "012"%char
  || Ascii.eqb c "013"%char || Ascii.eqb c " "%char.

Fixpoint skip_re_space (s : gostring) : gostring :=
  match s with
  | c :: r => if re_space c then skip_re_space r else s
  | [] => []
  end.

(** [FindStringIndex] for the opening pattern, anchored at the start of the
    text: any white space, the literal [<NAME] (the name is quoted with
    [QuoteMeta]), an optional group made of one white-space byte and any
    bytes other than [>], and a closing [>].  So after the leading white
    space the literal must follow; then either [>] at once, or a white-space
    byte and everything up to the first [>].  The result is the pair
    [(start, end)] of the match. *)
Definition openPattern_FindStringIndex (toolName xmlText : gostring)
  : option (nat * nat) :=
  let rest := skip_re_space xmlText in
  let lead := length xmlText - length rest in
  if strings.HasPrefix rest ("<"%char :: toolName) then
    let k := lead + S (length toolName) in
    match nth_error xmlText k with
    | None => None
    | Some c =>
        if Ascii.eqb c ">"%char then Some (0, S k)
        else if re_space c then
          match strings.Index (skipn (S k) xmlText) [">"%char] with
          | Some j => Some (0, S k + j + 1)
          | None => None
          end
        else None
    end
  else None.

(** Is [s], from its first byte to its end, the literal [</NAME], any
    white space, [>], and any white space? *)
Definition close_match_here (toolName s : gostring) : bool :=
  strings.HasPrefix s ("<"%char :: "/"%char :: toolName)
  && match skip_re_space (skipn (2 + length toolName) s) with
     | c :: r => Ascii.eqb c ">"%char && is_empty (skip_re_space r)
     | [] => false
     end.

Fixpoint close_find (toolName s : gostring) (pos : nat) : option (nat * nat) :=
  if close_match_here toolName s then Some (pos, pos + length s)
  else match s with
       | [] => None
       | _ :: r => close_find toolName r (S pos)
       end.

(** [FindStringIndex] for the closing pattern, anchored at the end of the
    text: the leftmost position from which the closing tag, with optional
    white space before and after its [>], reaches the end of the text. *)
Definition closePattern_FindStringIndex (toolName xmlText : gostring)
  : option (nat * nat) :=
  close_find toolName xmlText 0.

End regexp.

(** ** Package [encoding/json], for the target type [map[string]interface{}] *)

Module json.

(** A decoded JSON value.  A number keeps its exact decimal value
    [mant * 10 ^ exp10] (Go stores the nearest [float64]); a string keeps the
    bytes between its quotes, escapes checked and not expanded; an object
    keeps its members in source order (Go's map keeps the last of equal
    keys). *)
#[warnings="-register-all"]
Inductive value : Type :=
| Null
| Bool (b : bool)
| Number (neg : bool) (mant : Z) (exp10 : Z)
| Str (raw : gostring)
| Array (elems : list value)
| Object (members : list (gostring * value)).

(** A Go [map[string]interface{}]: the nil map, or an allocated one. *)
Inductive GoMap : Type :=
| nil_map
| make_map (entries : list (gostring * value)).

Inductive error : Type :=
| SyntaxError
| UnmarshalTypeError.

Inductive result : Type :=
| Ok (m : GoMap)
| Err (e : error).

(** JSON white space: space, tab, carriage return, newline. *)
Definition is_ws (c : ascii) : bool :=
  Ascii.eqb c " "%char || Ascii.eqb c "009"%char || Ascii.eqb c "013"%char
  || Ascii.eqb c "010"%char.

Fixpoint skip_ws (s : gostring) : gostring :=
  match s with
  | c :: r => if is_ws c then skip_ws r else s
  | [] => []
  end.

Definition is_digit (c : ascii) : bool :=
  let n := N_of_ascii c in ((48 <=? n) && (n <=? 57))%N.

Definition is_hex (c : ascii) : bool :=
  let n := N_of_ascii c in
  (is_digit c || ((65 <=? n) && (n <=? 70)) || ((97 <=? n) && (n <=? 102)))%N.

(** The bytes allowed after a backslash, [u] apart: quote, slash,
    backslash, [b], [f], [n], [r], [t]. *)
Definition is_escape (c : ascii) : bool :=
  Ascii.eqb c DQUOTE || Ascii.eqb c "/"%char || Ascii.eqb c "\"%char
  || Ascii.eqb c "b"%char || Ascii.eqb c "f"%char || Ascii.eqb c "n"%char
  || Ascii.eqb c "r"%char || Ascii.eqb c "t"%char.

(** The rest of a string literal after its opening quote: the raw bytes up
    to the closing quote, and what follows it.  Bytes below 0x20 and
    unknown escapes are syntax errors. *)
Fixpoint scan_string (s : gostring) : option (gostring * gostring) :=
  match s with
  | [] => None
  | c :: r =>
      if Ascii.eqb c DQUOTE then Some ([], r)
      else if Ascii.eqb c "\"%char then
        match r with
        | [] => None
        | e :: r1 =>
            if is_escape e then
              match scan_string r1 with
              | Some (raw, rest) => Some (c :: e :: raw, rest)
              | None => None
              end
            else if Ascii.eqb e "u"%char then
              match r1 with
              | h1 :: h2 :: h3 :: h4 :: r2 =>
                  if is_hex h1 && is_hex h2 && is_hex h3 && is_hex h4 then
                    match scan_string r2 with
                    | Some (raw, rest) =>
                        Some (c :: e :: h1 :: h2 :: h3 :: h4 :: raw, rest)
                    | None => None
                    end
                  else None
              | _ => None
              end
            else None
        end
      else if (N_of_ascii c <? 32)%N then None
      else match scan_string r with
           | Some (raw, rest) => Some (c :: raw, rest)
           | None => None
           end
  end.

Fixpoint span_digits (s : gostring) : gostring * gostring :=
  match s with
  | c :: r =>
      if is_digit c then let (d, rest) := span_digits r in (c :: d, rest)
      else ([], s)
  | [] => ([], [])
  end.

Definition digits_val (d : gostring) : Z :=
  fold_left (fun acc c => (10 * acc + (Z.of_N (N_of_ascii c) - 48))%Z) d 0%Z.

(** The integer part of a number: a single [0], or a non-zero digit and
    more digits. *)
Definition scan_int (s : gostring) : option (gostring * gostring) :=
  match s with
  | c :: r =>
      if Ascii.eqb c "0"%char then Some ([c], r)
      else if is_digit c then Some (span_digits s)
      else None
  | [] => None
  end.

Definition scan_frac (s : gostring) : option (gostring * gostring) :=
  match s with
  | c :: r =>
      if Ascii.eqb c "."%char then
        match span_digits r with
        | ([], _) => None
        | (d, rest) => Some (d, rest)
        end
      else Some ([], s)
  | [] => Some ([], [])
  end.

Definition scan_exp (s : gostring) : option (Z * gostring) :=
  match s with
  | c :: r =>
      if Ascii.eqb c "e"%char || Ascii.eqb c "E"%char then
        let (sign, r1) :=
          match r with
          | sg :: r' =>
              if Ascii.eqb sg "-"%char then ((-1)%Z, r')
              else if Ascii.eqb sg "+"%char then (1%Z, r')
              else (1%Z, r)
          | [] => (1%Z, r)
          end in
        match span_digits r1 with
        | ([], _) => None
        | (d, rest) => Some ((sign * digits_val d)%Z, rest)
        end
      else Some (0%Z, s)
  | [] => Some (0%Z, [])
  end.

Definition scan_number (s : gostring) : option (value * gostring) :=
  let (neg, s0) :=
    match s with
    | c :: r => if Ascii.eqb c "-"%char then (true, r) else (false, s)
    | [] => (false, s)
    end in
  match scan_int s0 with
  | None => None
  | Some (int, s1) =>
      match scan_frac s1 with
      | None => None
      | Some (frac, s2) =>
          match scan_exp s2 with
          | None => None
          | Some (e, s3) =>
              Some (Number neg (digits_val (int ++ frac))
                      (e - Z.of_nat (length frac))%Z, s3)
          end
      end
  end.

(** The scanner's nesting limit ([maxNestingDepth]). *)
Definition maxNestingDepth : N := 10000%N.

(** Recursive descent over the grammar the scanner accepts.  [depth] is the
    number of containers open around the value; [fuel] bounds the number of
    nested calls, each of which consumes at least one byte: twice the length
    of the text is always enough ([parse_fuel_enough] below). *)
Fixpoint parse_value (fuel : nat) (depth : N) (s : gostring) {struct fuel}
  : option (value * gostring) :=
  match fuel with
  | O => None
  | S f =>
      match skip_ws s with
      | [] => None
      | c :: r =>
          if Ascii.eqb c "{"%char then
            if (maxNestingDepth <=? depth)%N then None
            else match skip_ws r with
                 | c1 :: r1 =>
                     if Ascii.eqb c1 "}"%char then Some (Object [], r1)
                     else parse_members f (N.succ depth) (c1 :: r1) []
                 | [] => None
                 end
          else if Ascii.eqb c "["%char then
            if (maxNestingDepth <=? depth)%N then None
            else match skip_ws r with
                 | c1 :: r1 =>
                     if Ascii.eqb c1 "]"%char then Some (Array [], r1)
                     else parse_elements f (N.succ depth) (c1 :: r1) []
                 | [] => None
                 end
          else if Ascii.eqb c DQUOTE then
            match scan_string r with
            | Some (raw, rest) => Some (Str raw, rest)
            | None => None
            end
          else if Ascii.eqb c "-"%char || is_digit c then scan_number (c :: r)
          else if strings.HasPrefix (c :: r) (str "true")
               then Some (Bool true, skipn 4 (c :: r))
          else if strings.HasPrefix (c :: r) (str "false")
               then Some (Bool false, skipn 5 (c :: r))
          else if strings.HasPrefix (c :: r) (str "null")
               then Some (Null, skipn 4 (c :: r))
          else None
      end
  end
with parse_members (fuel : nat) (depth : N) (s : gostring)
       (acc : list (gostring * value)) {struct fuel}
  : option (value * gostring) :=
  match fuel with
  | O => None
  | S f =>
      match s with
      | c :: r =>
          if Ascii.eqb c DQUOTE then
            match scan_string r with
            | None => None
            | Some (key, r1) =>
                match skip_ws r1 with
                | c2 :: r2 =>
                    if Ascii.eqb c2 ":"%char then
                      match parse_value f depth r2 with
                      | None => None
                      | Some (v, r3) =>
                          match skip_ws r3 with
                          | c4 :: r4 =>
                              if Ascii.eqb c4 ","%char then
                                parse_members f depth (skip_ws r4)
                                  (acc ++ [(key, v)])
                              else if Ascii.eqb c4 "}"%char then
                                Some (Object (acc ++ [(key, v)]), r4)
                              else None
                          | [] => None
                          end
                      end
                    else None
                | [] => None
                end
            end
          else None
      | [] => None
      end
  end
with parse_elements (fuel : nat) (depth : N) (s : gostring)
       (acc : list value)
       {struct fuel} : option (value * gostring) :=
  match fuel with
  | O => None
  | S f =>
      match parse_value f depth s with
      | None => None
      | Some (v, r1) =>
          match skip_ws r1 with
          | c2 :: r2 =>
              if Ascii.eqb c2 ","%char then
                parse_elements f depth r2 (acc ++ [v])
              else if Ascii.eqb c2 "]"%char then Some (Array (acc ++ [v]), r2)
              else None
          | [] => None
          end
      end
  end.

(** A whole document: one value, white space around it, nothing else. *)
Definition parse (data : gostring) : option value :=
  match parse_value (2 * length data + 2) 0%N data with
  | Some (v, rest) => if is_empty (skip_ws rest) then Some v else None
  | None => None
  end.

(** [strconv.ParseFloat(s, 64)] fails with a range error when the decimal
    rounds to an infinity, that is from [2^1024 - 2^970] on. *)
Definition float64_overflow (mant exp10 : Z) : bool :=
  let limit := (2 ^ 1024 - 2 ^ 970)%Z in
  if (0 <=? exp10)%Z then (limit <=? mant * 10 ^ exp10)%Z
  else (limit * 10 ^ (- exp10) <=? mant)%Z.

(** No number of the value is out of the [float64] range. *)
Fixpoint range_ok (v : value) : bool :=
  match v with
  | Number _ mant exp10 => negb (float64_overflow mant exp10)
  | Array elems => forallb range_ok elems
  | Object members =>
      forallb (fun kv => match kv with (_, x) => range_ok x end) members
  | _ => true
  end.

(** [json.Unmarshal(data, &parsed)] with [parsed] a nil
    [map[string]interface{}]: invalid text is a syntax error; [null] leaves
    the map nil and is no error; an object is decoded into a new map, with an
    error when one of its numbers does not fit a [float64]; any other value
    is a type error. *)
Definition Unmarshal (data : gostring) : result :=
  match parse data with
  | None => Err SyntaxError
  | Some Null => Ok nil_map
  | Some (Object members) =>
      if range_ok (Object members) then Ok (make_map members)
      else Err UnmarshalTypeError
  | Some _ => Err UnmarshalTypeError
  end.

(** *** [json.Marshal] of a map of strings and booleans *)

(** A value of the payload maps of this package: a Go [string] or a
    [bool] held in an [interface{}]. *)
Inductive any : Type :=
| AString (s : gostring)
| ABool (b : bool).

Definition hex : gostring := str "0123456789abcdef".

Definition hex_at (n : N) : ascii := nth (N.to_nat n) hex "0"%char.

(** The table [htmlSafeSet]: the ASCII bytes from space to DEL, without the
    quote, the backslash, [&], [<] and [>]. *)
Definition htmlSafeSet (b : ascii) : bool :=
  let n := N_of_ascii b in
  (32 <=? n)%N && (n <? 128)%N
  && negb (Ascii.eqb b DQUOTE) && negb (Ascii.eqb b "&"%char)
  && negb (Ascii.eqb b "<"%char) && negb (Ascii.eqb b ">"%char)
  && negb (Ascii.eqb b "\"%char).

(** What [appendString] writes for a byte below [utf8.RuneSelf], with HTML
    escaping on, as [Marshal] has it.  [short_bf] tells the toolchain:
    from Go 1.22 on, backspace and form feed are written [\b] and [\f];
    before, they fall to the default case like the other control bytes. *)
Definition escape_ascii (short_bf : bool) (b : ascii) : gostring :=
  if htmlSafeSet b then [b]
  else if Ascii.eqb b "\"%char || Ascii.eqb b DQUOTE then ["\"%char; b]
  else if short_bf && Ascii.eqb b "008"%char then str "\b"
  else if short_bf && Ascii.eqb b "012"%char then str "\f"
  else if Ascii.eqb b "010"%char then str "\n"
  else if Ascii.eqb b "013"%char then str "\r"
  else if Ascii.eqb b "009"%char then str "\t"
  else str "\u00" ++ [hex_at (N_of_ascii b / 16); hex_at (N_of_ascii b mod 16)].

Definition in_range (lo hi : N) (c : ascii) : bool :=
  (lo <=? N_of_ascii c)%N && (N_of_ascii c <=? hi)%N.

(** A continuation byte. *)
Definition cont (c : ascii) : bool := in_range 128 191 c.

(** The encodings [utf8.DecodeRuneInString] accepts, by their length: the
    first byte fixes the length and the range of the second byte (no
    overlong form, no surrogate, nothing above U+10FFFF). *)
Definition rune2 (b0 b1 : ascii) : bool := in_range 194 223 b0 && cont b1.

Definition rune3 (b0 b1 b2 : ascii) : bool :=
  (in_range 224 224 b0 && in_range 160 191 b1
   || in_range 225 236 b0 && cont b1
   || in_range 237 237 b0 && in_range 128 159 b1
   || in_range 238 239 b0 && cont b1)
  && cont b2.

Definition rune4 (b0 b1 b2 b3 : ascii) : bool :=
  (in_range 240 240 b0 && in_range 144 191 b1
   || in_range 241 243 b0 && cont b1
   || in_range 244 244 b0 && in_range 128 143 b1)
  && cont b2 && cont b3.

(** U+2028 and U+2029, the bytes [E2 80 A8] and [E2 80 A9]. *)
Definition line_separator (b0 b1 b2 : ascii) : bool :=
  in_range 226 226 b0 && in_range 128 128 b1 && in_range 168 169 b2.

(** The loop of [appendString]: what is written between the quotes.  A
    byte that starts no valid encoding is written as the six bytes
    [\ufffd], and the loop goes on with the next byte; U+2028 and U+2029
    are written [\u2028] and [\u2029]; other runes are copied. *)
Fixpoint escape (short_bf : bool) (src : gostring) : gostring :=
  match src with
  | [] => []
  | b0 :: r1 =>
      if (N_of_ascii b0 <? 128)%N then
        escape_ascii short_bf b0 ++ escape short_bf r1
      else
        let invalid := "\"%char :: str "ufffd" ++ escape short_bf r1 in
        match r1 with
        | [] => invalid
        | b1 :: r2 =>
            if rune2 b0 b1 then b0 :: b1 :: escape short_bf r2
            else
              match r2 with
              | [] => invalid
              | b2 :: r3 =>
                  if rune3 b0 b1 b2 then
                    if line_separator b0 b1 b2
                    then str "\u202" ++ hex_at (N_of_ascii b2 mod 16)
                         :: escape short_bf r3
                    else b0 :: b1 :: b2 :: escape short_bf r3
                  else
                    match r3 with
                    | [] => invalid
                    | b3 :: r4 =>
                        if rune4 b0 b1 b2 b3
                        then b0 :: b1 :: b2 :: b3 :: escape short_bf r4
                        else invalid
                    end
              end
        end
  end.

Definition appendString (short_bf : bool) (src : gostring) : gostring :=
  DQUOTE :: escape short_bf src ++ [DQUOTE].

Definition marshal_any (short_bf : bool) (v : any) : gostring :=
  match v with
  | AString s => appendString short_bf s
  | ABool true => str "true"
  | ABool false => str "false"
  end.

(** The map encoder sorts the entries by key. *)
Fixpoint insert_sorted (kv : gostring * any) (m : list (gostring * any))
  : list (gostring * any) :=
  match m with
  | [] => [kv]
  | kv' :: rest =>
      if strings.less (fst kv') (fst kv) then kv' :: insert_sorted kv rest
      else kv :: m
  end.

Definition sort_entries (m : list (gostring * any)) : list (gostring * any) :=
  fold_right insert_sorted [] m.

(** [json.Marshal(m)] for a map [m] given by its entries, the keys
    distinct: it cannot fail on such a map. *)
Definition Marshal (short_bf : bool) (m : list (gostring * any)) : gostring :=
  "{"%char
  :: strings.Join
       (map (fun kv => appendString short_bf (fst kv) ++ ":"%char
                       :: marshal_any short_bf (snd kv))
          (sort_entries m))
       [","%char]
  ++ ["}"%char].

End json.

(** ** Package [mcp] *)

Module mcp.

Definition MCP_XML_ENV : gostring := str "AG2API_MCP_XML_ENABLED".

(** The process environment read by [os.Getenv]: an unset variable reads as
    the empty string. *)
Definition environ : Type := gostring -> option gostring.

Definition Getenv (env : environ) (key : gostring) : gostring :=
  match env key with
  | Some v => v
  | None => []
  end.

Definition IsMcpXmlEnabled (env : environ) : bool :=
  let raw := Getenv env MCP_XML_ENV in
  if is_empty raw then true
  else
    let v := strings.ToLower (strings.TrimSpace raw) in
    negb (gostring_eqb v (str "0")) && negb (gostring_eqb v (str "false"))
    && negb (gostring_eqb v (str "no")) && negb (gostring_eqb v (str "off")).

(** *** The name filter *)

Definition IsMcpToolName (name : gostring) : bool :=
  strings.HasPrefix name (str "mcp__").

(** The loop of [GetMcpToolNames]: [result] starts nil and grows by
    [append]. *)
Definition GetMcpToolNames (tools : list gostring) : list gostring :=
  fold_left
    (fun result name => if IsMcpToolName name then result ++ [name] else result)
    tools [].

(** *** The prompt and the result element *)

(** The struct [McpTool]; its fields are in a module of their own, [Name]
    being a field of [McpToolCall] too. *)
Module McpTool.

Record t : Type := {
  Name : gostring;
  Description : gostring;
  InputSchema : gostring
}.

End McpTool.

Definition quoted (s : gostring) : gostring := DQUOTE :: s ++ [DQUOTE].

(** The lines appended before the loop over the tools. *)
Definition prompt_header : list gostring :=
  [ str "==== MCP XML 工具调用（仅 mcp__*） ====";
    str "当你需要调用名称以 `mcp__` 开头的 MCP 工具时：";
    str "1) 不要使用 tool_use/function_call（因为该链路会报错）。";
    str "2) 直接输出一个 XML 块（只输出 XML，不要解释/不要 markdown）。";
    str "3) XML 的根标签必须是工具名，内容必须是 JSON（对象/数组），表示该工具的入参。";
    [];
    str "示例：";
    str "<mcp__server__tool>{" ++ quoted (str "arg") ++ str ":"
      ++ quoted (str "value") ++ str "}</mcp__server__tool>";
    [];
    str "工具执行完成后，我会把结果以如下 XML 返回给你：";
    str "<mcp_tool_result>{" ++ quoted (str "name") ++ str ":"
      ++ quoted (str "mcp__server__tool") ++ str ","
      ++ quoted (str "tool_use_id") ++ str ":" ++ quoted (str "toolu_xxx")
      ++ str "," ++ quoted (str "result") ++ str ":" ++ quoted (str "...")
      ++ str "," ++ quoted (str "is_error")
      ++ str ":false}</mcp_tool_result>";
    [];
    str "当 is_error 为 true 时，表示该工具执行失败，result 内容为错误信息。";
    [];
    str "对于非 `mcp__*` 工具：继续使用正常的工具调用机制。";
    [];
    str "可用 MCP 工具列表（name / description / input_schema）：" ].

(** One turn of the loop over the tools. *)
Definition prompt_step (lines : list gostring) (tool : McpTool.t)
  : list gostring :=
  if negb (IsMcpToolName (McpTool.Name tool)) then lines
  else
    let desc := McpTool.Description tool in
    let line := str "- " ++ McpTool.Name tool in
    let line := if negb (is_empty desc) then line ++ str ": " ++ desc
                else line in
    let lines := lines ++ [line] in
    if negb (is_empty (McpTool.InputSchema tool))
    then lines ++ [str "  input_schema: " ++ McpTool.InputSchema tool]
    else lines.

Definition BuildMcpXmlSystemPrompt (mcpTools : list McpTool.t) : gostring :=
  if length mcpTools =? 0 then []
  else strings.Join (fold_left prompt_step mcpTools prompt_header)
         ["010"%char].

(** [BuildMcpToolResultXml]; [short_bf] is the toolchain's choice in
    [json.escape_ascii].  The error of [json.Marshal] is dropped by the
    source, and there is none for this map. *)
Definition BuildMcpToolResultXml (short_bf : bool)
  (toolName toolUseID result : gostring) (isError : bool) : gostring :=
  let payload :=
    [ (str "name", json.AString toolName);
      (str "tool_use_id", json.AString toolUseID);
      (str "result", json.AString result);
      (str "is_error", json.ABool isError) ] in
  let jsonBytes := json.Marshal short_bf payload in
  str "<mcp_tool_result>" ++ jsonBytes ++ str "</mcp_tool_result>".

(** *** The identifier counter *)

Definition uint64_modulus : Z := 18446744073709551616%Z.

(** [atomic.AddUint64(&addr, delta)]: the new value, wrapped at 2^64.  The
    atomic additions of concurrent callers take effect one after the other,
    so a run of the process is a sequence of such steps. *)
Definition AddUint64 (addr delta : Z) : Z := ((addr + delta) mod uint64_modulus)%Z.

(** The verb [%d] of [fmt.Sprintf] on a [uint64]. *)
Definition format_uint (n : Z) : gostring :=
  list_ascii_of_string (NilZero.string_of_uint (N.to_uint (Z.to_N n))).

(** [MakeToolUseID(name)] on the counter value [ctr]: the identifier and
    the counter after the call. *)
Definition MakeToolUseID (name : gostring) (ctr : Z) : gostring * Z :=
  let n := AddUint64 ctr 1 in
  (name ++ "-"%char :: format_uint n, n).

(** *** Data *)

Record McpToolCall : Type := {
  Name : gostring;
  Input : json.GoMap;
  ID : gostring
}.

(** [toolNames] is a Go map used as a set; the order in which [range] visits
    its keys is not specified, and the list holds the names in the order of
    the visit. *)
Record XmlStreamParser : Type := {
  toolNames : list gostring;
  buffer : gostring
}.

Definition NewXmlStreamParser (names : list gostring) : XmlStreamParser :=
  {| toolNames :=
       nodup (list_eq_dec ascii_dec)
         (filter (fun name => negb (is_empty name)) names);
     buffer := [] |}.

(** The struct [ParseResult]; its fields [Type], [Name] and [Input] are
    [Type_], [ResultName] and [ResultInput] here ([Name] and [Input] are the
    fields of [McpToolCall]). *)
Record ParseResult : Type := {
  Type_ : gostring;
  Text : gostring;
  ResultName : gostring;
  ResultInput : json.GoMap
}.

Definition text_result (text : gostring) : ParseResult :=
  {| Type_ := str "text"; Text := text; ResultName := [];
     ResultInput := json.nil_map |}.

Definition tool_result (name : gostring) (input : json.GoMap) : ParseResult :=
  {| Type_ := str "tool"; Text := []; ResultName := name;
     ResultInput := input |}.

(** *** The tag locator *)

Definition is_boundary (ch : ascii) : bool :=
  Ascii.eqb ch ">"%char || Ascii.eqb ch "/"%char || Ascii.eqb ch " "%char
  || Ascii.eqb ch "009"%char || Ascii.eqb ch "010"%char
  || Ascii.eqb ch "013"%char.

(** One turn of the loop over the names: [best] is [None] for [-1]. *)
Definition locate_step (buf : gostring) (best : option (nat * gostring))
  (name : gostring) : option (nat * gostring) :=
  let open := "<"%char :: name in
  match strings.Index buf open with
  | None => best
  | Some idx =>
      match nth_error buf (idx + length open) with
      | Some ch =>
          if is_boundary ch then
            match best with
            | None => Some (idx, name)
            | Some (b, _) => if idx <? b then Some (idx, name) else best
            end
          else best
      | None =>
          match best with
          | None => Some (idx, name)
          | Some (b, _) => if idx <? b then Some (idx, name) else best
          end
      end
  end.

Definition findNextToolStartIndex (p : XmlStreamParser)
  : option (nat * gostring) :=
  fold_left (locate_step (buffer p)) (toolNames p) None.

(** *** The element extractor *)

Definition findCloseTagEndIndex (p : XmlStreamParser) (name : gostring)
  : option nat :=
  let needle := "<"%char :: "/"%char :: name in
  match strings.Index (buffer p) needle with
  | None => None
  | Some idx =>
      let after := idx + length needle in
      if length (buffer p) <=? after then None
      else match strings.Index (skipn after (buffer p)) [">"%char] with
           | None => None
           | Some gtIdx => Some (after + gtIdx + 1)
           end
  end.

(** *** The partial-tag guard *)

Definition isPossibleToolTagPrefix (p : XmlStreamParser) (text : gostring)
  : bool :=
  if negb (strings.HasPrefix text ["<"%char]) then false
  else
    existsb
      (fun name =>
         strings.HasPrefix ("<"%char :: name) text
         || strings.HasPrefix ("<"%char :: "/"%char :: name) text)
      (toolNames p).

Definition splitBufferForPartialTag (p : XmlStreamParser)
  : gostring * gostring :=
  match strings.LastIndex (buffer p) ["<"%char] with
  | None => (buffer p, [])
  | Some lastLt =>
      let tail := skipn lastLt (buffer p) in
      if isPossibleToolTagPrefix p tail
      then (firstn lastLt (buffer p), tail)
      else (buffer p, [])
  end.

(** *** The payload decoder *)

(** [TryParseMcpToolCallXml(xmlText, toolName)] on the counter value [ctr]:
    the call (or [None] for the pair [nil, false]) and the counter after it.
    The slice [xmlText[openMatch[1]:closeMatch[0]]] panics when the closing
    match starts before the opening match ends. *)
Definition TryParseMcpToolCallXml (xmlText toolName : gostring) (ctr : Z)
  : outcome (option McpToolCall * Z) :=
  if is_empty toolName || is_empty xmlText then Done (None, ctr)
  else
    match regexp.openPattern_FindStringIndex toolName xmlText,
          regexp.closePattern_FindStringIndex toolName xmlText with
    | Some (_, openEnd), Some (closeStart, _) =>
        inner <- slice xmlText openEnd closeStart ;;
        let inner := strings.TrimSpace inner in
        if is_empty inner then
          let (id, ctr') := MakeToolUseID toolName ctr in
          Done (Some {| Name := toolName; Input := json.make_map [];
                        ID := id |}, ctr')
        else
          match json.Unmarshal inner with
          | json.Err _ => Done (None, ctr)
          | json.Ok parsed =>
              let (id, ctr') := MakeToolUseID toolName ctr in
              Done (Some {| Name := toolName; Input := parsed; ID := id |},
                    ctr')
          end
    | _, _ => Done (None, ctr)
    end.

(** *** The tokenizer *)

Definition with_buffer (p : XmlStreamParser) (b : gostring) : XmlStreamParser :=
  {| toolNames := toolNames p; buffer := b |}.

(** The [for] loop of [PushText].  A turn that does not leave the loop
    removes [closeEnd >= 1] bytes from the buffer, so one more turn than the
    buffer has bytes is always enough ([PushText_loop_fuel] below). *)
Fixpoint PushText_loop (fuel : nat) (p : XmlStreamParser) (ctr : Z)
  (results : list ParseResult)
  : outcome (list ParseResult * XmlStreamParser * Z) :=
  match fuel with
  | O => OutOfFuel
  | S fuel' =>
      let no_tag :=
        let (emit, keep) := splitBufferForPartialTag p in
        Done (if is_empty emit then results else results ++ [text_result emit],
              with_buffer p keep, ctr) in
      match findNextToolStartIndex p with
      | None => no_tag
      | Some (index, name) =>
          if is_empty name then no_tag
          else
            let results1 :=
              if 0 <? index
              then results ++ [text_result (firstn index (buffer p))]
              else results in
            let p1 :=
              if 0 <? index then with_buffer p (skipn index (buffer p))
              else p in
            match findCloseTagEndIndex p1 name with
            | None => Done (results1, p1, ctr)
            | Some closeEnd =>
                let xml := firstn closeEnd (buffer p1) in
                let p2 := with_buffer p1 (skipn closeEnd (buffer p1)) in
                r <- TryParseMcpToolCallXml xml name ctr ;;
                match r with
                | (Some parsed, ctr') =>
                    PushText_loop fuel' p2 ctr'
                      (results1 ++ [tool_result (Name parsed) (Input parsed)])
                | (None, ctr') =>
                    PushText_loop fuel' p2 ctr' (results1 ++ [text_result xml])
                end
            end
      end
  end.

Definition PushText (p : XmlStreamParser) (text : gostring) (ctr : Z)
  : outcome (list ParseResult * XmlStreamParser * Z) :=
  if is_empty text then Done ([], p, ctr)
  else
    let p0 := with_buffer p (buffer p ++ text) in
    PushText_loop (S (length (buffer p0))) p0 ctr [].

Definition Flush (p : XmlStreamParser) : list ParseResult * XmlStreamParser :=
  if is_empty (buffer p) then ([], p)
  else ([text_result (buffer p)], with_buffer p []).

End mcp.


Import mcp.

(** ** Streams: a sequence of pushes closed by a flush *)

Fixpoint push_chunks (p : XmlStreamParser) (chunks : list gostring) (ctr : Z)
  : outcome (list ParseResult * XmlStreamParser * Z) :=
  match chunks with
  | [] => Done ([], p, ctr)
  | chunk :: rest =>
      r <- PushText p chunk ctr ;;
      let '(out, p1, ctr1) := r in
      r' <- push_chunks p1 rest ctr1 ;;
      let '(out', p2, ctr2) := r' in
      Done (out ++ out', p2, ctr2)
  end.

(** All segments of a stream: those of the pushes, then those of [Flush]. *)
Definition run_stream (names chunks : list gostring) (ctr : Z)
  : outcome (list ParseResult) :=
  r <- push_chunks (NewXmlStreamParser names) chunks ctr ;;
  let '(out, p, _) := r in
  Done (out ++ fst (Flush p)).

Definition is_text (r : ParseResult) : bool := gostring_eqb (Type_ r) (str "text").

(** The observable output: neighbouring text segments are concatenated, tool
    segments stay where they are. *)
Fixpoint observable (rs : list ParseResult) : list ParseResult :=
  match rs with
  | [] => []
  | r :: rest =>
      match observable rest with
      | r' :: rest' =>
          if is_text r && is_text r'
          then text_result (Text r ++ Text r') :: rest'
          else r :: r' :: rest'
      | [] => [r]
      end
  end.

Definition tool_segments (rs : list ParseResult) : list ParseResult :=
  filter (fun r => negb (is_text r)) rs.

(** ** White space *)

(** A string made of white-space runes only. *)
Inductive white_space : gostring -> Prop :=
| ws_nil : white_space []
| ws_ascii c s :
    strings.asciiSpace c = true -> white_space s -> white_space (c :: s)
| ws_two b1 b2 s :
    strings.space2 b1 b2 = true -> white_space s ->
    white_space (b1 :: b2 :: s)
| ws_three b1 b2 b3 s :
    strings.space3 b1 b2 b3 = true -> white_space s ->
    white_space (b1 :: b2 :: b3 :: s).

(** A byte below 0x80 that is not white space: no white-space rune starts
    or ends with it. *)
Definition plain (c : ascii) : Prop :=
  strings.asciiSpace c = false /\ (N_of_ascii c < 128)%N.

(** ** The words of the feature toggle *)

Definition disabling_words : list gostring :=
  [str "0"; str "false"; str "no"; str "off"].

(** Equality up to the case of ASCII letters. *)
Definition equal_fold (a b : gostring) : Prop :=
  strings.ToLower a = strings.ToLower b.

(** The toggle as the specification words it: on when the value is empty,
    off exactly when the value itself is one of the four words. *)
Definition toggle_on_value (env : environ) : Prop :=
  (Getenv env MCP_XML_ENV = [] -> IsMcpXmlEnabled env = true)
  /\ (IsMcpXmlEnabled env = false <->
      exists w, In w disabling_words
                /\ equal_fold (Getenv env MCP_XML_ENV) w).

(** ** Sequences of identifiers *)

(** [MakeToolUseID] called once for each name of the list, in order: the
    identifiers, and the counter at the end. *)
Fixpoint mint_all (names : list gostring) (ctr : Z) : list gostring * Z :=
  match names with
  | [] => ([], ctr)
  | name :: rest =>
      let (id, ctr1) := MakeToolUseID name ctr in
      let (ids, ctr2) := mint_all rest ctr1 in
      (id :: ids, ctr2)
  end.

(** The number of calls after which the counter is back at its value. *)
Definition wrap_calls : nat := Z.to_nat uint64_modulus.

(** ** Elements *)

(** The closing tag of [name], the element with interior [inner], both
    without attributes or inner white space in the tags. *)
Definition close_tag (name : gostring) : gostring :=
  "<"%char :: "/"%char :: name ++ [">"%char].

Definition element (name inner : gostring) : gostring :=
  "<"%char :: name ++ ">"%char :: inner ++ close_tag name.

(** What the decoder makes of an interior, once the tags are stripped. *)
Definition decode_inner (toolName inner : gostring) (ctr : Z)
  : option McpToolCall * Z :=
  let trimmed := strings.TrimSpace inner in
  let call input :=
    (Some {| Name := toolName; Input := input;
             ID := fst (MakeToolUseID toolName ctr) |},
     snd (MakeToolUseID toolName ctr)) in
  if is_empty trimmed then call (json.make_map [])
  else match json.Unmarshal trimmed with
       | json.Err _ => (None, ctr)
       | json.Ok parsed => call parsed
       end.

(** The segment an element becomes: a tool segment when its interior
    decodes, the element itself as text when it does not. *)
Definition segment_of (name inner : gostring) (ctr : Z) : ParseResult :=
  match fst (decode_inner name inner ctr) with
  | Some call => tool_result (Name call) (Input call)
  | None => text_result (element name inner)
  end.

(** A byte that delimits tags: [<] or a boundary byte. *)
Definition is_tag_byte (c : ascii) : bool :=
  Ascii.eqb c "<"%char || is_boundary c.

(** A name as tags have them: not empty, and free of [<], [>], [/], space,
    tab, newline and carriage return. *)
Definition tag_name (name : gostring) : Prop :=
  name <> [] /\ Forall (fun c => is_tag_byte c = false) name.

Definition no_lt (s : gostring) : Prop := ~ In "<"%char s.




(** ** Tags in the buffer *)

(** The opening tag of [name] is accepted at the start of [buf]: the literal
    is there, and the byte after it, if any, is a boundary byte. *)
Definition opens_at_start (name buf : gostring) : Prop :=
  strings.HasPrefix buf ("<"%char :: name) = true
  /\ match nth_error buf (S (length name)) with
     | Some ch => is_boundary ch = true
     | None => True
     end.

(** The closing tag of [name] has been seen up to its [>]: somewhere the
    literal [</name] occurs, and a [>] comes after it. *)
Definition close_seen (name buf : gostring) : Prop :=
  exists a b c,
    buf = a ++ ("<"%char :: "/"%char :: name) ++ b ++ ">"%char :: c.

(** A candidate the locator loop has accepted in [buf]: a known name, the
    first occurrence of its opening literal, and a boundary byte (or the end
    of the buffer) after it. *)
Definition accepted (buf : gostring) (names : list gostring)
  (r : nat * gostring) : Prop :=
  In (snd r) names
  /\ strings.Index buf ("<"%char :: snd r) = Some (fst r)
  /\ match nth_error buf (fst r + S (length (snd r))) with
     | Some ch => is_boundary ch = true
     | None => True
     end.

(** The best candidate so far is not at index 0. *)
Definition later (best : option (nat * gostring)) : Prop :=
  match best with
  | Some (i, _) => 0 < i
  | None => True
  end.

(** An element that is open and not closed yet: the buffer starts with an
    accepted opening tag of a known name, and the closing tag of that name
    has not been seen up to its [>]. *)
Definition incomplete_element (p : XmlStreamParser) : Prop :=
  exists name,
    In name (toolNames p)
    /\ opens_at_start name (buffer p)
    /\ ~ close_seen name (buffer p).

(** A tag that may still come: the buffer starts with [<] and is a prefix of
    the opening form [<name] or of the closing form [</name] of a known
    name. *)
Definition partial_tag (p : XmlStreamParser) : Prop :=
  strings.HasPrefix (buffer p) ["<"%char] = true
  /\ exists name,
       In name (toolNames p)
       /\ (strings.HasPrefix ("<"%char :: name) (buffer p) = true
           \/ strings.HasPrefix ("<"%char :: "/"%char :: name) (buffer p)
              = true).

Definition buffer_invariant (p : XmlStreamParser) : Prop :=
  buffer p = [] \/ incomplete_element p \/ partial_tag p.

(** The states of a parser over its life: created, then pushed to. *)
Inductive reachable (names : list gostring) : XmlStreamParser -> Prop :=
| reach_new : reachable names (NewXmlStreamParser names)
| reach_push p text ctr out p' ctr' :
    reachable names p ->
    PushText p text ctr = Done (out, p', ctr') ->
    reachable names p'.

(** ** Segments and the bytes they stand for *)

(** A segment as [PushText] builds them: a text segment with a non-empty
    text, or a tool segment with a non-empty name out of [names]. *)
Definition well_formed_segment (names : list gostring) (r : ParseResult)
  : Prop :=
  (exists text, text <> [] /\ r = text_result text)
  \/ (exists name input,
        In name names /\ name <> [] /\ r = tool_result name input).

(** The bytes of the input a segment stands for: a text segment stands for
    its text; a tool segment stands for a span that
    [TryParseMcpToolCallXml] decodes, under the segment's name, to the
    segment's input. *)
Definition span_of (r : ParseResult) (span : gostring) : Prop :=
  if is_text r then span = Text r
  else exists ctr ctr' call,
      TryParseMcpToolCallXml span (ResultName r) ctr = Done (Some call, ctr')
      /\ Input call = ResultInput r.

(** ** The payload of a result element *)

(** A byte that cannot disturb the element around a payload: not a control
    byte, and none of [<], [>] and [&]. *)
Definition payload_byte (c : ascii) : bool :=
  (32 <=? N_of_ascii c)%N && negb (Ascii.eqb c "<"%char)
  && negb (Ascii.eqb c ">"%char) && negb (Ascii.eqb c "&"%char).




(** ** Budgets of the JSON parser *)

(** With the budget [f], what a parser leaves is shorter than what it was
    given. *)
Definition shorter_at (f : nat) : Prop :=
  (forall d s v r,
      json.parse_value f d s = Some (v, r) -> length r < length s)
  /\ (forall d s acc v r,
         json.parse_members f d s acc = Some (v, r) -> length r < length s)
  /\ (forall d s acc v r,
         json.parse_elements f d s acc = Some (v, r) -> length r < length s).

(** With the budget [f], for texts short enough, one more unit of budget
    changes nothing. *)
Definition stable_at (f : nat) : Prop :=
  (forall d s g,
      g = S f -> 2 * length s < f ->
      json.parse_value f d s = json.parse_value g d s)
  /\ (forall d s acc g,
         g = S f -> 2 * length s < f ->
         json.parse_members f d s acc = json.parse_members g d s acc)
  /\ (forall d s acc g,
         g = S f -> 2 * length s + 1 < f ->
         json.parse_elements f d s acc = json.parse_elements g d s acc).

(** ** Proof steps *)

(** Split boolean hypotheses into their cases and turn byte tests into
    equations. *)
Ltac bool_hyps :=
  repeat match goal with
         | H : _ || _ = true |- _ => apply orb_true_iff in H as [H|H]
         | H : _ && _ = true |- _ =>
             let H' := fresh H in apply andb_true_iff in H as [H H']
         | H : Ascii.eqb _ _ = true |- _ => apply Ascii.eqb_eq in H; subst
         end.

(** ** Facts about the string primitives *)

Section StringFacts.

Lemma HasPrefix_app (p r : gostring) : strings.HasPrefix (p ++ r) p = true.
Proof.
  induction p as [|c p IH]; simpl; [reflexivity|].
  now rewrite Ascii.eqb_refl, IH.
Qed.

Lemma HasPrefix_true (s p : gostring) :
  strings.HasPrefix s p = true -> exists r, s = p ++ r.
Proof.
  revert s; induction p as [|c p IH]; intros s H.
  - now exists s.
  - destruct s as [|d s]; simpl in H; [discriminate|].
    apply andb_true_iff in H as [Hc Hp].
    apply Ascii.eqb_eq in Hc; subst d.
    destruct (IH _ Hp) as [r ->]. now exists r.
Qed.

Lemma HasPrefix_iff (s p : gostring) :
  strings.HasPrefix s p = true <-> exists r, s = p ++ r.
Proof.
  split; [apply HasPrefix_true|].
  intros [r ->]; apply HasPrefix_app.
Qed.

Lemma HasPrefix_cons (c d : ascii) (s r : gostring) :
  strings.HasPrefix (c :: s) (d :: r)
  = Ascii.eqb c d && strings.HasPrefix s r.
Proof. reflexivity. Qed.

Lemma HasPrefix_nil_r (s : gostring) : strings.HasPrefix s [] = true.
Proof. now destruct s. Qed.

Lemma is_empty_true (s : gostring) : is_empty s = true <-> s = [].
Proof. destruct s; simpl; split; congruence. Qed.

Lemma is_empty_false (s : gostring) : is_empty s = false <-> s <> [].
Proof. destruct s; simpl; split; congruence. Qed.

Lemma gostring_eqb_eq (a b : gostring) : gostring_eqb a b = true <-> a = b.
Proof.
  unfold gostring_eqb; destruct (list_eq_dec ascii_dec a b); split; congruence.
Qed.

(** [Index] returns the first position at which [substr] starts. *)
Lemma Index_Some (s substr : gostring) (i : nat) :
  strings.Index s substr = Some i ->
  exists a b, s = a ++ substr ++ b /\ length a = i.
Proof.
  revert i; induction s as [|c s IH]; intros i H; simpl in H.
  - destruct (strings.HasPrefix [] substr) eqn:E; [|discriminate].
    injection H as <-. apply HasPrefix_true in E as [r E].
    exists [], r; split; [exact E | reflexivity].
  - destruct (strings.HasPrefix (c :: s) substr) eqn:E.
    + injection H as <-. apply HasPrefix_true in E as [r E].
      exists [], r; split; [exact E | reflexivity].
    + destruct (strings.Index s substr) as [j|] eqn:Ej; [|discriminate].
      injection H as <-. destruct (IH j eq_refl) as (a & b & -> & Hl).
      exists (c :: a), b; split; [reflexivity | simpl; now rewrite Hl].
Qed.

Lemma Index_first (s substr : gostring) (i j : nat) :
  strings.Index s substr = Some i -> j < i ->
  strings.HasPrefix (skipn j s) substr = false.
Proof.
  revert i j; induction s as [|c s IH]; intros i j H Hj; simpl in H.
  - destruct (strings.HasPrefix [] substr); [|discriminate].
    injection H as <-; lia.
  - destruct (strings.HasPrefix (c :: s) substr) eqn:E.
    + injection H as <-; lia.
    + destruct (strings.Index s substr) as [k|] eqn:Ek; [|discriminate].
      injection H as <-. destruct j as [|j]; [exact E|].
      simpl. apply (IH k); [reflexivity | lia].
Qed.

Lemma Index_None (s substr : gostring) (j : nat) :
  strings.Index s substr = None ->
  strings.HasPrefix (skipn j s) substr = false.
Proof.
  revert j; induction s as [|c s IH]; intros j H; simpl in H.
  - destruct (strings.HasPrefix [] substr) eqn:E; [discriminate|].
    now destruct j.
  - destruct (strings.HasPrefix (c :: s) substr) eqn:E; [discriminate|].
    destruct (strings.Index s substr) eqn:Ek; [discriminate|].
    destruct j as [|j]; [exact E | simpl; now apply IH].
Qed.


Lemma Index_skipn (s substr : gostring) (i : nat) :
  strings.Index s substr = Some i ->
  strings.HasPrefix (skipn i s) substr = true.
Proof.
  intros H. destruct (Index_Some _ _ _ H) as (a & b & -> & <-).
  rewrite skipn_app, skipn_all, Nat.sub_diag. simpl. apply HasPrefix_app.
Qed.

Lemma Index_bound (s substr : gostring) (i : nat) :
  strings.Index s substr = Some i -> i + length substr <= length s.
Proof.
  intros H. destruct (Index_Some _ _ _ H) as (a & b & -> & <-).
  rewrite !length_app. lia.
Qed.

End StringFacts.

(** ** The JSON parser does not depend on its budget *)

Section JsonFuel.

Lemma skip_ws_le (s : gostring) : length (json.skip_ws s) <= length s.
Proof.
  induction s as [|c s IH]; simpl; [lia|].
  destruct (json.is_ws c); simpl; lia.
Qed.

Lemma scan_string_shorter (s raw rest : gostring) :
  json.scan_string s = Some (raw, rest) -> length rest < length s.
Proof.
  remember (length s) as n eqn:Hn. revert s raw rest Hn.
  induction n as [n IH] using lt_wf_ind. intros s raw rest Hn H.
  destruct s as [|c r]; [discriminate|]. cbn [json.scan_string] in H.
  destruct (Ascii.eqb c DQUOTE); [injection H as _ <-; simpl in *; lia|].
  destruct (Ascii.eqb c "\"%char).
  - destruct r as [|e r1]; [discriminate|].
    destruct (json.is_escape e).
    + destruct (json.scan_string r1) as [[raw' rest']|] eqn:E; [|discriminate].
      injection H as _ <-.
      apply (IH (length r1)) in E; simpl in *; try lia; reflexivity.
    + destruct (Ascii.eqb e "u"%char); [|discriminate].
      destruct r1 as [|h1 [|h2 [|h3 [|h4 r2]]]]; try discriminate.
      destruct (json.is_hex h1 && json.is_hex h2 && json.is_hex h3
                && json.is_hex h4); [|discriminate].
      destruct (json.scan_string r2) as [[raw' rest']|] eqn:E; [|discriminate].
      injection H as _ <-.
      apply (IH (length r2)) in E; simpl in *; try lia; reflexivity.
  - destruct (N_of_ascii c <? 32)%N; [discriminate|].
    destruct (json.scan_string r) as [[raw' rest']|] eqn:E; [|discriminate].
    injection H as _ <-.
    apply (IH (length r)) in E; simpl in *; try lia; reflexivity.
Qed.

Lemma span_digits_le (s : gostring) :
  length (snd (json.span_digits s)) <= length s.
Proof.
  induction s as [|c s IH]; simpl; [lia|].
  destruct (json.is_digit c); [|simpl; lia].
  destruct (json.span_digits s). simpl in *. lia.
Qed.

Lemma span_digits_lt (c : ascii) (s : gostring) :
  json.is_digit c = true ->
  length (snd (json.span_digits (c :: s))) < length (c :: s).
Proof.
  intros H. simpl. rewrite H.
  pose proof (span_digits_le s) as L.
  destruct (json.span_digits s). simpl in *. lia.
Qed.

Lemma scan_number_shorter (s : gostring) (v : json.value) (rest : gostring) :
  json.scan_number s = Some (v, rest) -> length rest < length s.
Proof.
  unfold json.scan_number. intros H.
  set (p := match s with
            | c :: r => if Ascii.eqb c "-"%char then (true, r) else (false, s)
            | [] => (false, s)
            end) in H.
  assert (Hp : length (snd p) <= length s).
  { unfold p. destruct s as [|c r]; simpl; [lia|].
    destruct (Ascii.eqb c "-"%char); simpl; lia. }
  destruct p as [neg s0]. simpl in Hp.
  destruct (json.scan_int s0) as [[int s1]|] eqn:Ei; [|discriminate].
  assert (H1 : length s1 < length s0).
  { unfold json.scan_int in Ei. destruct s0 as [|c r]; [discriminate|].
    destruct (Ascii.eqb c "0"%char); [injection Ei as _ <-; simpl; lia|].
    destruct (json.is_digit c) eqn:Ed; [|discriminate].
    pose proof (span_digits_lt c r Ed) as L.
    destruct (json.span_digits (c :: r)). injection Ei as _ <-. exact L. }
  destruct (json.scan_frac s1) as [[frac s2]|] eqn:Ef; [|discriminate].
  assert (H2 : length s2 <= length s1).
  { unfold json.scan_frac in Ef. destruct s1 as [|c r].
    - injection Ef as _ <-. simpl; lia.
    - destruct (Ascii.eqb c "."%char).
      + pose proof (span_digits_le r) as L.
        destruct (json.span_digits r) as [[|d ds] rest'];
          [discriminate|]. injection Ef as _ <-. simpl in *. lia.
      + injection Ef as _ <-. lia. }
  destruct (json.scan_exp s2) as [[e s3]|] eqn:Ee; [|discriminate].
  assert (H3 : length s3 <= length s2).
  { unfold json.scan_exp in Ee. destruct s2 as [|c r].
    - injection Ee as _ <-. simpl; lia.
    - destruct (Ascii.eqb c "e"%char || Ascii.eqb c "E"%char).
      + set (q := match r with
                  | sg :: r' =>
                      if Ascii.eqb sg "-"%char then ((-1)%Z, r')
                      else if Ascii.eqb sg "+"%char then (1%Z, r')
                      else (1%Z, r)
                  | [] => (1%Z, r)
                  end) in Ee.
        assert (Hq : length (snd q) <= length r).
        { unfold q. destruct r as [|sg r']; simpl; [lia|].
          destruct (Ascii.eqb sg "-"%char); simpl; [lia|].
          destruct (Ascii.eqb sg "+"%char); simpl; lia. }
        destruct q as [sign r1]. simpl in Hq.
        pose proof (span_digits_le r1) as L.
        destruct (json.span_digits r1) as [[|d ds] rest'];
          [discriminate|]. injection Ee as _ <-. simpl in *. lia.
      + injection Ee as _ <-. lia. }
  injection H as _ <-. lia.
Qed.

(** Turn the equations of a parse in the context into facts on lengths. *)
Ltac len_facts shorter :=
  repeat match goal with
         | H : json.skip_ws ?x = _ |- _ =>
             let L := fresh "L" in
             pose proof (skip_ws_le x) as L; rewrite H in L; clear H
         | H : json.scan_string _ = Some _ |- _ =>
             apply scan_string_shorter in H
         | H : json.scan_number _ = Some _ |- _ =>
             apply scan_number_shorter in H
         | H : json.parse_value _ _ _ = Some _ |- _ =>
             apply (proj1 shorter) in H
         | H : json.parse_members _ _ _ _ = Some _ |- _ =>
             apply (proj1 (proj2 shorter)) in H
         | H : json.parse_elements _ _ _ _ = Some _ |- _ =>
             apply (proj2 (proj2 shorter)) in H
         | H : Some _ = Some _ |- _ => injection H as H; subst
         | H : (_, _) = (_, _) |- _ => injection H as H; subst
         end;
  repeat match goal with
         | |- context [length (json.skip_ws ?x)] =>
             let L := fresh "L" in
             pose proof (skip_ws_le x) as L;
             generalize dependent (json.skip_ws x); intros
         | H : context [length (json.skip_ws ?x)] |- _ =>
             let L := fresh "L" in
             pose proof (skip_ws_le x) as L;
             generalize dependent (json.skip_ws x); intros
         end;
  rewrite ?length_skipn in *; cbn [length] in *.

Ltac break_hyp H :=
  match type of H with
  | context [match ?x with _ => _ end] => destruct x eqn:?
  | context [if ?x then _ else _] => destruct x eqn:?
  end.

Lemma parse_shorter (f : nat) : shorter_at f.
Proof.
  induction f as [|f IH]; [repeat split; intros; discriminate|].
  unfold shorter_at in *.
  repeat split; intros until r; intros H;
    [cbn [json.parse_value] in H | cbn [json.parse_members] in H
    | cbn [json.parse_elements] in H];
    repeat (break_hyp H; try discriminate H);
    len_facts IH; try lia;
    repeat match goal with
           | |- context [match ?g with _ => _ end] => destruct g
           end; cbn [length] in *; lia.
Qed.

Ltac break_goal :=
  match goal with
  | |- context [match ?x with _ => _ end] => destruct x eqn:?
  | |- context [if ?x then _ else _] => destruct x eqn:?
  end.

Lemma parse_stable (f : nat) : stable_at f.
Proof.
  induction f as [|f IH]; [repeat split; intros; lia|].
  pose proof (parse_shorter f) as S1.
  destruct IH as (IHv & IHm & IHe).
  repeat split; intros * Eg Hlen;
    (destruct g as [|g1]; [discriminate Eg|]); injection Eg as Eg;
    [cbn [json.parse_value] | cbn [json.parse_members]
    | cbn [json.parse_elements]];
    repeat first
      [ reflexivity
      | discriminate
      | match goal with
        | H : json.parse_value _ _ _ = _ |- _ => rewrite H
        | H : json.parse_members _ _ _ _ = _ |- _ => rewrite H
        | H : json.parse_elements _ _ _ _ = _ |- _ => rewrite H
        end
      | rewrite <- (IHv _ _ g1 Eg) by (len_facts S1; lia)
      | rewrite <- (IHm _ _ _ g1 Eg) by (len_facts S1; lia)
      | rewrite <- (IHe _ _ _ g1 Eg) by (len_facts S1; lia)
      | break_goal ].
Qed.

Lemma parse_value_more_fuel (f g : nat) (d : N) (s : gostring) :
  2 * length s < f -> f <= g ->
  json.parse_value g d s = json.parse_value f d s.
Proof.
  intros Hf Hg. induction Hg as [|g Hg IH]; [reflexivity|].
  rewrite <- IH. symmetry. apply (proj1 (parse_stable g)); [reflexivity | lia].
Qed.

End JsonFuel.

(** The budget of [json.parse] is enough: a larger one gives the same
    result, so a text is only rejected for its syntax or its nesting. *)
Lemma parse_fuel_enough (data : gostring) (g : nat) :
  2 * length data + 2 <= g ->
  json.parse_value g 0%N data
  = json.parse_value (2 * length data + 2) 0%N data.
Proof.
  intros H. apply parse_value_more_fuel; lia.
Qed.

(** ** The tag locator stops at the first occurrence of a name *)

(** C2.  With the known name [foo] and the buffer [<foobar> <foo>], the
    opening tag [<foo] occurs at index 9 and is followed there by [>], a valid
    boundary byte; the occurrence at index 0 is followed by [b] and is
    rejected.  The claim asks for index 9; [findNextToolStartIndex] gives up
    on the name after its first occurrence and returns "not found". *)
Theorem findNextToolStartIndex_skips_later_occurrence :
  let p := {| toolNames := [str "foo"]; buffer := str "<foobar> <foo>" |} in
  strings.HasPrefix (skipn 9 (buffer p)) (str "<foo") = true
  /\ option_map is_boundary (nth_error (buffer p) 13) = Some true
  /\ findNextToolStartIndex p = None.
Proof. repeat split. Qed.

(** C1.  With the known name [tool], the text [<toolx <tool>{}</tool>] pushed
    whole comes out as one text segment, and pushed as the two chunks
    [<toolx ] and [<tool>{}</tool>] it comes out as a text segment and a tool
    segment: the observable outputs differ, and so do their tool segments. *)
Theorem chunking_changes_output :
  let names := [str "tool"] in
  let whole := [text_result (str "<toolx <tool>{}</tool>")] in
  let split := [text_result (str "<toolx ");
                tool_result (str "tool") (json.make_map [])] in
  run_stream names [str "<toolx <tool>{}</tool>"] 0%Z = Done whole
  /\ run_stream names [str "<toolx "; str "<tool>{}</tool>"] 0%Z = Done split
  /\ observable whole <> observable split
  /\ tool_segments whole <> tool_segments split.
Proof. repeat split; vm_compute; discriminate. Qed.

(** C3.  With the known name [tool], pushing [<tool </tool>] makes the
    opening pattern match up to the final [>] while the closing pattern
    matches from index 6: the slice of the interior has its bounds reversed
    and the call panics instead of returning segments. *)
Theorem PushText_panics_on_overlapping_tags :
  regexp.openPattern_FindStringIndex (str "tool") (str "<tool </tool>")
  = Some (0, 13)
  /\ regexp.closePattern_FindStringIndex (str "tool") (str "<tool </tool>")
     = Some (6, 13)
  /\ PushText (NewXmlStreamParser [str "tool"]) (str "<tool </tool>") 0%Z
     = Panic "slice bounds out of range".
Proof. repeat split. Qed.

(** ** Flush *)

(** C5.  [Flush] on a non-empty buffer returns exactly one text segment
    holding the whole buffer and leaves the buffer empty (the names are
    untouched); on an empty buffer it returns no segment and changes
    nothing. *)
Theorem Flush_contract (p : XmlStreamParser) :
  match buffer p with
  | [] => Flush p = ([], p)
  | _ :: _ =>
      Flush p = ([text_result (buffer p)], with_buffer p [])
      /\ buffer (snd (Flush p)) = []
  end.
Proof.
  unfold Flush. destruct (buffer p); simpl; [reflexivity | split; reflexivity].
Qed.

(** ** White space and [TrimSpace] *)

Section TrimFacts.

Lemma white_space_app (a b : gostring) :
  white_space a -> white_space b -> white_space (a ++ b).
Proof.
  induction 1; intros Hb; simpl; auto using white_space.
Qed.

Lemma eqb_high (c d : ascii) :
  (N_of_ascii c < 128)%N -> (128 <=? N_of_ascii d)%N = true ->
  Ascii.eqb c d = false.
Proof.
  intros Hc Hd. apply Ascii.eqb_neq. intros ->.
  apply N.leb_le in Hd. lia.
Qed.

Lemma plain_space2_l c b : plain c -> strings.space2 c b = false.
Proof.
  intros [_ H]. unfold strings.space2. now rewrite (eqb_high _ _ H).
Qed.

Lemma plain_space2_r c b : plain c -> strings.space2 b c = false.
Proof.
  intros [_ H]. unfold strings.space2.
  rewrite !(eqb_high c _ H) by reflexivity. apply andb_false_r.
Qed.

Lemma plain_space3_l c b b' : plain c -> strings.space3 c b b' = false.
Proof.
  intros [_ H]. unfold strings.space3.
  now rewrite !(eqb_high c _ H) by reflexivity.
Qed.

Lemma plain_space3_r c b b' : plain c -> strings.space3 b b' c = false.
Proof.
  intros [_ H]. unfold strings.space3.
  rewrite !(eqb_high c _ H) by reflexivity.
  replace ((128 <=? N_of_ascii c)%N) with false
    by (symmetry; apply N.leb_gt; exact H).
  simpl. rewrite !andb_false_r. reflexivity.
Qed.

Lemma space2_bytes b1 b2 :
  strings.space2 b1 b2 = true ->
  strings.asciiSpace b1 = false /\ strings.asciiSpace b2 = false.
Proof.
  unfold strings.space2. intros H.
  apply andb_true_iff in H as [H1 H2]. apply Ascii.eqb_eq in H1; subst b1.
  split; [reflexivity|].
  apply orb_true_iff in H2 as [H2|H2]; apply Ascii.eqb_eq in H2; subst b2;
    reflexivity.
Qed.

Lemma asciiSpace_low c : strings.asciiSpace c = true -> (N_of_ascii c < 128)%N.
Proof.
  unfold strings.asciiSpace. intros H.
  repeat (apply orb_true_iff in H as [H|H]);
    apply Ascii.eqb_eq in H; subst c; reflexivity.
Qed.

Lemma space3_bytes b1 b2 b3 :
  strings.space3 b1 b2 b3 = true ->
  strings.asciiSpace b1 = false /\ strings.asciiSpace b3 = false
  /\ strings.space2 b1 b2 = false /\ strings.space2 b2 b3 = false.
Proof.
  unfold strings.space3. intros H.
  assert (H1 : (128 <=? N_of_ascii b1)%N = true
               /\ Ascii.eqb b1 "194"%char = false
               /\ Ascii.eqb b2 "194"%char = false
               /\ (128 <=? N_of_ascii b3)%N = true).
  { bool_hyps; repeat split; try reflexivity; assumption. }
  destruct H1 as (L1 & N1 & N2 & L3).
  assert (A : forall c, (128 <=? N_of_ascii c)%N = true ->
                        strings.asciiSpace c = false).
  { intros c Hc. destruct (strings.asciiSpace c) eqn:E; [|reflexivity].
    apply asciiSpace_low in E. apply N.leb_le in Hc. lia. }
  unfold strings.space2. rewrite N1, N2. auto.
Qed.

Lemma TrimLeftSpace_white (l x : gostring) :
  white_space l -> strings.TrimLeftSpace (l ++ x) = strings.TrimLeftSpace x.
Proof.
  induction 1 as [|c s Hc _ IH|b1 b2 s Hb _ IH|b1 b2 b3 s Hb _ IH]; simpl.
  - reflexivity.
  - now rewrite Hc.
  - destruct (space2_bytes _ _ Hb) as [-> _]. now rewrite Hb.
  - destruct (space3_bytes _ _ _ Hb) as (-> & _ & -> & _). now rewrite Hb.
Qed.

Lemma TrimLeftSpace_plain (c : ascii) (x : gostring) :
  plain c -> strings.TrimLeftSpace (c :: x) = c :: x.
Proof.
  intros Hc. simpl. rewrite (proj1 Hc).
  destruct x as [|b2 [|b3 x]]; try reflexivity;
    rewrite (plain_space2_l _ _ Hc); try reflexivity.
  now rewrite (plain_space3_l _ _ _ Hc).
Qed.

Lemma TrimLeftSpaceRev_white (r y : gostring) :
  white_space r ->
  strings.TrimLeftSpaceRev (rev r ++ y) = strings.TrimLeftSpaceRev y.
Proof.
  intros H; revert y.
  induction H as [|c s Hc _ IH|b1 b2 s Hb _ IH|b1 b2 b3 s Hb _ IH];
    intros y; simpl.
  - reflexivity.
  - rewrite <- app_assoc, IH. simpl. now rewrite Hc.
  - rewrite <- !app_assoc, IH. simpl.
    destruct (space2_bytes _ _ Hb) as [_ ->]. now rewrite Hb.
  - rewrite <- !app_assoc, IH. simpl.
    destruct (space3_bytes _ _ _ Hb) as (_ & -> & _ & ->). now rewrite Hb.
Qed.

Lemma TrimLeftSpaceRev_plain (c : ascii) (x : gostring) :
  plain c -> strings.TrimLeftSpaceRev (c :: x) = c :: x.
Proof.
  intros Hc. simpl. rewrite (proj1 Hc).
  destruct x as [|b2 [|b3 x]]; try reflexivity;
    rewrite (plain_space2_r _ _ Hc); try reflexivity.
  now rewrite (plain_space3_r _ _ _ Hc).
Qed.

(** Trimming removes exactly the white space around a core that starts and
    ends with plain bytes. *)
Lemma TrimSpace_sandwich (l v r : gostring) :
  white_space l -> white_space r -> Forall plain v ->
  strings.TrimSpace (l ++ v ++ r) = v.
Proof.
  intros Hl Hr Hv. unfold strings.TrimSpace, strings.TrimRightSpace.
  rewrite (TrimLeftSpace_white _ _ Hl).
  destruct v as [|a v'].
  - simpl. replace r with (r ++ []) by apply List.app_nil_r.
    rewrite (TrimLeftSpace_white _ _ Hr). simpl. reflexivity.
  - simpl app at 1. rewrite TrimLeftSpace_plain by (now inversion Hv).
    change (a :: v' ++ r) with ((a :: v') ++ r).
    rewrite rev_app_distr, (TrimLeftSpaceRev_white _ _ Hr).
    destruct (rev (a :: v')) as [|z t] eqn:E.
    + apply (f_equal (@length _)) in E. rewrite length_rev in E. discriminate.
    + rewrite TrimLeftSpaceRev_plain.
      * rewrite <- E. apply rev_involutive.
      * apply (proj1 (Forall_forall plain (a :: v')) Hv).
        apply in_rev. rewrite E. now left.
Qed.

(** What [TrimLeftSpace] removes is white space. *)
Lemma TrimLeftSpace_split (s : gostring) :
  exists l, s = l ++ strings.TrimLeftSpace s /\ white_space l.
Proof.
  remember (length s) as n eqn:Hn.
  revert s Hn. induction n as [n IH] using lt_wf_ind. intros s Hn.
  destruct s as [|b1 r1]; [exists []; split; [reflexivity | constructor]|].
  simpl. destruct (strings.asciiSpace b1) eqn:E1.
  { destruct (IH (length r1)) with (s := r1) as (l & Hl & Hw);
      [simpl in Hn; lia | reflexivity |].
    exists (b1 :: l). split; [simpl; now rewrite <- Hl | now constructor]. }
  destruct r1 as [|b2 r2]; [exists []; split; [reflexivity | constructor]|].
  destruct (strings.space2 b1 b2) eqn:E2.
  { destruct (IH (length r2)) with (s := r2) as (l & Hl & Hw);
      [simpl in Hn; lia | reflexivity |].
    exists (b1 :: b2 :: l).
    split; [simpl; now rewrite <- Hl | now constructor]. }
  destruct r2 as [|b3 r3]; [exists []; split; [reflexivity | constructor]|].
  destruct (strings.space3 b1 b2 b3) eqn:E3.
  { destruct (IH (length r3)) with (s := r3) as (l & Hl & Hw);
      [simpl in Hn; lia | reflexivity |].
    exists (b1 :: b2 :: b3 :: l).
    split; [simpl; now rewrite <- Hl | now constructor]. }
  exists []; split; [reflexivity | constructor].
Qed.

Lemma TrimLeftSpaceRev_split (s : gostring) :
  exists l, s = l ++ strings.TrimLeftSpaceRev s /\ white_space (rev l).
Proof.
  remember (length s) as n eqn:Hn.
  revert s Hn. induction n as [n IH] using lt_wf_ind. intros s Hn.
  destruct s as [|b1 r1]; [exists []; split; [reflexivity | constructor]|].
  simpl. destruct (strings.asciiSpace b1) eqn:E1.
  { destruct (IH (length r1)) with (s := r1) as (l & Hl & Hw);
      [simpl in Hn; lia | reflexivity |].
    exists (b1 :: l). split; [simpl; now rewrite <- Hl|].
    simpl. apply white_space_app; [exact Hw|].
    now repeat constructor. }
  destruct r1 as [|b2 r2]; [exists []; split; [reflexivity | constructor]|].
  destruct (strings.space2 b2 b1) eqn:E2.
  { destruct (IH (length r2)) with (s := r2) as (l & Hl & Hw);
      [simpl in Hn; lia | reflexivity |].
    exists (b1 :: b2 :: l). split; [simpl; now rewrite <- Hl|].
    simpl. rewrite <- app_assoc. apply white_space_app; [exact Hw|].
    simpl. apply ws_two; [exact E2 | constructor]. }
  destruct r2 as [|b3 r3]; [exists []; split; [reflexivity | constructor]|].
  destruct (strings.space3 b3 b2 b1) eqn:E3.
  { destruct (IH (length r3)) with (s := r3) as (l & Hl & Hw);
      [simpl in Hn; lia | reflexivity |].
    exists (b1 :: b2 :: b3 :: l). split; [simpl; now rewrite <- Hl|].
    simpl. rewrite <- !app_assoc. apply white_space_app; [exact Hw|].
    simpl. apply ws_three; [exact E3 | constructor]. }
  exists []; split; [reflexivity | constructor].
Qed.

(** [TrimSpace] removes white space, and only white space, at both ends. *)
Lemma TrimSpace_split (s : gostring) :
  exists l r, s = l ++ strings.TrimSpace s ++ r
              /\ white_space l /\ white_space r.
Proof.
  destruct (TrimLeftSpace_split s) as (l & Hl & Wl).
  destruct (TrimLeftSpaceRev_split (rev (strings.TrimLeftSpace s)))
    as (r' & Hr & Wr).
  exists l, (rev r'). repeat split; try assumption.
  unfold strings.TrimSpace, strings.TrimRightSpace.
  rewrite <- rev_app_distr, <- Hr, rev_involutive. exact Hl.
Qed.

End TrimFacts.

(** ** The feature toggle *)

Section Toggle.

Lemma plain_of_lower (c d : ascii) :
  strings.lower_byte c = d ->
  existsb (Ascii.eqb d) (str "0aeflnos") = true ->
  plain c.
Proof.
  intros <-.
  destruct c as [[] [] [] [] [] [] [] []]; vm_compute; intros H;
    try discriminate H; split; reflexivity.
Qed.

Lemma disabling_word_core (v w : gostring) :
  In w disabling_words -> equal_fold v w ->
  Forall plain v /\ strings.ToLower v = w.
Proof.
  unfold disabling_words, equal_fold, strings.ToLower. intros Hin Heq.
  simpl in Hin.
  destruct Hin as [<-|[<-|[<-|[<-|[]]]]]; simpl in Heq;
    repeat (destruct v as [|? v]; simpl in Heq; try discriminate Heq);
    injection Heq as Heq; intros;
    (split;
     [repeat constructor; eapply plain_of_lower; try eassumption; reflexivity
     | simpl; repeat (f_equal; try assumption) ]).
Qed.

Lemma disabled_value (v : gostring) :
  In (strings.ToLower v) disabling_words ->
  (negb (gostring_eqb (strings.ToLower v) (str "0"))
   && negb (gostring_eqb (strings.ToLower v) (str "false"))
   && negb (gostring_eqb (strings.ToLower v) (str "no"))
   && negb (gostring_eqb (strings.ToLower v) (str "off"))) = false.
Proof.
  intros Hin. simpl in Hin.
  destruct Hin as [<-|[<-|[<-|[<-|[]]]]]; reflexivity.
Qed.

Lemma enabled_value (v : gostring) :
  (negb (gostring_eqb v (str "0")) && negb (gostring_eqb v (str "false"))
   && negb (gostring_eqb v (str "no")) && negb (gostring_eqb v (str "off")))
  = false ->
  In v disabling_words.
Proof.
  intros H. unfold disabling_words.
  repeat (apply andb_false_iff in H as [H|H]);
    apply negb_false_iff, gostring_eqb_eq in H; subst v; simpl; auto.
Qed.

End Toggle.

(** C9, as stated, fails: the value [" off"] is none of the four words, in
    any case of letters, and yet the subsystem is off. *)
Lemma toggle_on_value_fails :
  ~ toggle_on_value (fun _ => Some (str " off")).
Proof.
  intros [_ [H _]]. destruct (H eq_refl) as (w & Hin & Heq).
  simpl in Hin. unfold equal_fold in Heq.
  destruct Hin as [<-|[<-|[<-|[<-|[]]]]]; vm_compute in Heq; discriminate Heq.
Qed.

(** C9, amended.  [IsMcpXmlEnabled] is true when the variable is unset or
    empty, and false exactly when the value, with the white space around it
    removed, is one of ["0"], ["false"], ["no"], ["off"] up to the case of
    letters; every other value leaves the subsystem on. *)
Theorem IsMcpXmlEnabled_spec (env : environ) :
  (Getenv env MCP_XML_ENV = [] -> IsMcpXmlEnabled env = true)
  /\ (IsMcpXmlEnabled env = false <->
      exists l v r w,
        Getenv env MCP_XML_ENV = l ++ v ++ r
        /\ white_space l /\ white_space r
        /\ In w disabling_words /\ equal_fold v w).
Proof.
  unfold IsMcpXmlEnabled. split.
  - intros ->. reflexivity.
  - set (raw := Getenv env MCP_XML_ENV). split.
    + destruct (is_empty raw) eqn:E; [discriminate|]. intros H.
      apply enabled_value in H.
      destruct (TrimSpace_split raw) as (l & r & Hraw & Hl & Hr).
      exists l, (strings.TrimSpace raw), r,
        (strings.ToLower (strings.TrimSpace raw)).
      repeat split; try assumption.
      unfold equal_fold.
      simpl in H. destruct H as [H|[H|[H|[H|[]]]]]; rewrite <- H; reflexivity.
    + intros (l & v & r & w & Hraw & Hl & Hr & Hin & Heq).
      destruct (disabling_word_core v w Hin Heq) as [Hv Hw].
      assert (Hne : is_empty raw = false).
      { apply is_empty_false. rewrite Hraw. intros E.
        apply app_eq_nil in E as [_ E]. apply app_eq_nil in E as [E _].
        subst v. simpl in Hw. subst w.
        simpl in Hin. destruct Hin as [H|[H|[H|[H|[]]]]]; discriminate H. }
      rewrite Hne, Hraw, (TrimSpace_sandwich l v r Hl Hr Hv).
      apply disabled_value. now rewrite Hw.
Qed.

Lemma IsMcpXmlEnabled_spec_witness :
  IsMcpXmlEnabled (fun _ => Some (str " Off ")) = false.
Proof.
  apply (proj2 (proj2 (IsMcpXmlEnabled_spec (fun _ => Some (str " Off "))))).
  exists (str " "), (str "Off"), (str " "), (str "off").
  split; [reflexivity|].
  split; [apply ws_ascii; [reflexivity | apply ws_nil]|].
  split; [apply ws_ascii; [reflexivity | apply ws_nil]|].
  split; [simpl; auto | reflexivity].
Defined.

(** ** Identifiers *)

Section Identifiers.

Lemma wrap_calls_Z : Z.of_nat wrap_calls = uint64_modulus.
Proof. unfold wrap_calls. apply Z2Nat.id. discriminate. Qed.

Lemma digits_no_dash (d : Decimal.uint) :
  ~ In "-"%char (list_ascii_of_string (NilEmpty.string_of_uint d)).
Proof.
  induction d; simpl; [tauto | intros [H|H]; [discriminate H | auto] ..].
Qed.

Lemma format_uint_no_dash (n : Z) : ~ In "-"%char (format_uint n).
Proof.
  unfold format_uint, NilZero.string_of_uint.
  destruct (N.to_uint (Z.to_N n)) eqn:E; try (rewrite <- E; apply digits_no_dash).
  simpl. intros [H|[]]. discriminate H.
Qed.

Lemma list_ascii_of_string_inj (a b : string) :
  list_ascii_of_string a = list_ascii_of_string b -> a = b.
Proof.
  intros H. rewrite <- (string_of_list_ascii_of_string a),
              <- (string_of_list_ascii_of_string b).
  now rewrite H.
Qed.

Lemma N_to_uint_nonnil (n : N) : N.to_uint n <> Decimal.Nil.
Proof.
  destruct n; simpl; [discriminate | apply DecimalPos.Unsigned.to_uint_nonnil].
Qed.

Lemma format_uint_inj (a b : Z) :
  (0 <= a)%Z -> (0 <= b)%Z -> format_uint a = format_uint b -> a = b.
Proof.
  unfold format_uint. intros Ha Hb H.
  apply list_ascii_of_string_inj in H.
  apply (f_equal NilZero.uint_of_string) in H.
  rewrite !NilZero.usu in H by apply N_to_uint_nonnil.
  injection H as H. apply DecimalN.Unsigned.to_uint_inj in H. lia.
Qed.

(** A string is cut in one way only at the last occurrence of a byte. *)
Lemma split_at_first (x : ascii) (a a' b b' : gostring) :
  ~ In x a -> ~ In x a' -> a ++ x :: b = a' ++ x :: b' -> a = a' /\ b = b'.
Proof.
  revert a'. induction a as [|c a IH]; intros [|c' a'] Ha Ha' H; simpl in *.
  - injection H as ->. auto.
  - injection H as <- _. tauto.
  - injection H as -> _. tauto.
  - injection H as <- H. destruct (IH a') as [-> ->]; auto.
Qed.

Lemma split_at_last (x : ascii) (a a' b b' : gostring) :
  ~ In x b -> ~ In x b' -> a ++ x :: b = a' ++ x :: b' -> a = a' /\ b = b'.
Proof.
  intros Hb Hb' H. apply (f_equal (@rev ascii)) in H.
  rewrite !rev_app_distr in H. simpl in H. rewrite <- !app_assoc in H.
  simpl in H. apply split_at_first in H; try (rewrite <- in_rev; assumption).
  destruct H as [H1 H2].
  apply (f_equal (@rev ascii)) in H1, H2. rewrite !rev_involutive in H1, H2.
  auto.
Qed.

(** The identifier of the call number [i] (from 0). *)
Lemma mint_all_nth (names : list gostring) (ctr : Z) (i : nat)
  (name : gostring) :
  nth_error names i = Some name ->
  nth_error (fst (mint_all names ctr)) i
  = Some (name ++ "-"%char
            :: format_uint ((ctr + Z.of_nat i + 1) mod uint64_modulus)).
Proof.
  revert ctr i. induction names as [|n names IH]; intros ctr i H.
  - destruct i; discriminate H.
  - simpl.
    destruct (mint_all names (AddUint64 ctr 1)) as [ids c2] eqn:E.
    destruct i as [|i]; simpl in *.
    + injection H as ->. unfold AddUint64.
      now replace (ctr + 0 + 1)%Z with (ctr + 1)%Z by lia.
    + specialize (IH (AddUint64 ctr 1) i H). rewrite E in IH. simpl in IH.
      rewrite IH. unfold AddUint64.
      rewrite <- (Z.add_assoc ((ctr + 1) mod uint64_modulus)),
        Z.add_mod_idemp_l by discriminate.
      replace (ctr + 1 + (Z.of_nat i + 1))%Z
        with (ctr + Z.of_nat (S i) + 1)%Z by lia.
      reflexivity.
Qed.

Lemma mint_all_length (names : list gostring) (ctr : Z) :
  length (fst (mint_all names ctr)) = length names.
Proof.
  revert ctr. induction names as [|n names IH]; intros ctr; simpl.
  - reflexivity.
  - specialize (IH (AddUint64 ctr 1)).
    destruct (mint_all names (AddUint64 ctr 1)). simpl in *. now rewrite IH.
Qed.

Lemma mod_shift_inj (a i j : Z) :
  (0 <= i < uint64_modulus)%Z -> (0 <= j < uint64_modulus)%Z ->
  ((a + i) mod uint64_modulus = (a + j) mod uint64_modulus)%Z -> i = j.
Proof.
  unfold uint64_modulus. intros Hi Hj H.
  pose proof (Z.div_mod (a + i) 18446744073709551616 ltac:(discriminate)) as E1.
  pose proof (Z.div_mod (a + j) 18446744073709551616 ltac:(discriminate)) as E2.
  rewrite H in E1. lia.
Qed.

End Identifiers.

(** C8, as stated, fails for the number of calls [2^64 + 1]: the counter is
    a [uint64], the last call finds it back at 0 and returns the identifier
    of the first call. *)
Lemma identifiers_repeat_after_wrap :
  ~ NoDup (fst (mint_all (repeat (str "t") (S wrap_calls)) 0%Z)).
Proof.
  intros H. rewrite NoDup_nth_error in H.
  assert (E : 0 = wrap_calls).
  { apply H.
    - rewrite mint_all_length, repeat_length. lia.
    - rewrite (mint_all_nth _ _ 0 (str "t")),
        (mint_all_nth _ _ wrap_calls (str "t")).
      + rewrite wrap_calls_Z. reflexivity.
      + apply nth_error_repeat. lia.
      + apply nth_error_repeat. lia. }
  apply (f_equal Z.of_nat) in E. rewrite wrap_calls_Z in E. discriminate E.
Qed.

(** C8, amended.  Up to [2^64] calls of [MakeToolUseID], whatever the names
    and the value of the counter before the first call: the identifiers are
    pairwise distinct, and the one of call number [i] is the name, a dash and
    the decimal value of the counter, which each call increases by one
    modulo [2^64]. *)
Theorem MakeToolUseID_unique (names : list gostring) (ctr : Z) :
  (Z.of_nat (length names) <= uint64_modulus)%Z ->
  NoDup (fst (mint_all names ctr))
  /\ forall i name,
       nth_error names i = Some name ->
       nth_error (fst (mint_all names ctr)) i
       = Some (name ++ "-"%char
                 :: format_uint
                      ((ctr + Z.of_nat i + 1) mod uint64_modulus)).
Proof.
  intros Hlen. split; [|intros i name; apply mint_all_nth].
  apply NoDup_nth_error. intros i j Hi E.
  rewrite mint_all_length in Hi.
  destruct (nth_error names i) as [ni|] eqn:Ei;
    [|apply nth_error_None in Ei; lia].
  rewrite (mint_all_nth _ _ _ _ Ei) in E.
  destruct (nth_error names j) as [nj|] eqn:Ej.
  - rewrite (mint_all_nth _ _ _ _ Ej) in E. injection E as E.
    apply split_at_last in E; try apply format_uint_no_dash.
    destruct E as [_ E].
    apply format_uint_inj in E;
      try (apply Z.mod_pos_bound; reflexivity).
    assert (Hj : j < length names) by (apply nth_error_Some; congruence).
    replace (ctr + Z.of_nat i + 1)%Z with ((ctr + 1) + Z.of_nat i)%Z in E
      by lia.
    replace (ctr + Z.of_nat j + 1)%Z with ((ctr + 1) + Z.of_nat j)%Z in E
      by lia.
    apply mod_shift_inj in E; lia.
  - apply nth_error_None in Ej.
    assert (N : nth_error (fst (mint_all names ctr)) j = None)
      by (apply nth_error_None; rewrite mint_all_length; exact Ej).
    rewrite N in E. discriminate E.
Qed.

Lemma MakeToolUseID_unique_witness :
  NoDup (fst (mint_all [str "a-b"; str "a"; str "a-b"] 0%Z)).
Proof.
  apply (proj1 (MakeToolUseID_unique [str "a-b"; str "a"; str "a-b"] 0%Z
                  ltac:(vm_compute; discriminate))).
Defined.

(** ** The two patterns on a complete element *)

Section PatternFacts.

Lemma skip_re_space_split (s : gostring) :
  exists w, s = w ++ regexp.skip_re_space s /\ forallb regexp.re_space w = true.
Proof.
  induction s as [|c s (w & Hs & Hw)]; [now exists []|].
  simpl. destruct (regexp.re_space c) eqn:E.
  - exists (c :: w). simpl. now rewrite E, <- Hs.
  - now exists [].
Qed.

Lemma skipn_app_length (A : Type) (a b : list A) : skipn (length a) (a ++ b) = b.
Proof. now rewrite skipn_app, skipn_all, Nat.sub_diag. Qed.

Lemma firstn_app_length (A : Type) (a b : list A) : firstn (length a) (a ++ b) = a.
Proof.
  now rewrite firstn_app, firstn_all, Nat.sub_diag, List.app_nil_r.
Qed.

Lemma close_match_here_true (name s : gostring) :
  regexp.close_match_here name s = true ->
  exists w1 w2,
    s = ("<"%char :: "/"%char :: name) ++ w1 ++ ">"%char :: w2
    /\ forallb regexp.re_space w1 = true
    /\ forallb regexp.re_space w2 = true.
Proof.
  unfold regexp.close_match_here. intros H.
  apply andb_true_iff in H as [Hp H].
  apply HasPrefix_true in Hp as [rest ->].
  change (2 + length name) with (length ("<"%char :: "/"%char :: name)) in H.
  rewrite skipn_app_length in H.
  destruct (skip_re_space_split rest) as (w1 & Hrest & Hw1).
  destruct (regexp.skip_re_space rest) as [|c r]; [discriminate|].
  apply andb_true_iff in H as [Hc Hr].
  apply Ascii.eqb_eq in Hc; subst c.
  destruct (skip_re_space_split r) as (w2 & Hr2 & Hw2).
  apply is_empty_true in Hr. rewrite Hr, List.app_nil_r in Hr2. subst w2.
  exists w1, r. now rewrite Hrest at 1.
Qed.

Lemma close_match_here_tag (name : gostring) :
  regexp.close_match_here name (close_tag name) = true.
Proof.
  unfold regexp.close_match_here, close_tag.
  change ("<"%char :: "/"%char :: name ++ [">"%char])
    with (("<"%char :: "/"%char :: name) ++ [">"%char]).
  rewrite HasPrefix_app.
  change (2 + length name) with (length ("<"%char :: "/"%char :: name)).
  now rewrite skipn_app_length.
Qed.

(** If [r ++ x = w ++ r], every byte of [w] occurs in [x]. *)
Lemma conjugate_bytes (r x w : gostring) :
  r ++ x = w ++ r -> forall c, In c w -> In c x.
Proof.
  remember (length r) as n eqn:Hn. revert r Hn.
  induction n as [n IH] using lt_wf_ind. intros r Hn E c Hc.
  apply app_eq_app in E as [l [[E1 E2]|[E1 E2]]].
  - destruct w as [|a w]; [destruct Hc|].
    apply (IH (length l)) with (r := l); auto.
    + subst n. rewrite E1, length_app. simpl. lia.
    + congruence.
  - subst w x. apply in_app_iff in Hc. apply in_app_iff. tauto.
Qed.

(** Nothing before the closing tag of an element starts a match of the
    closing pattern: the closing match is the closing tag itself. *)
Lemma close_tag_unique (name u : gostring) :
  u <> [] -> regexp.close_match_here name (u ++ close_tag name) = false.
Proof.
  intros Hu. destruct (regexp.close_match_here name (u ++ close_tag name)) eqn:E;
    [exfalso | reflexivity].
  apply close_match_here_true in E as (w1 & w2 & E & Hw1 & Hw2).
  set (s0 := "<"%char :: "/"%char :: name) in *.
  assert (E' : u ++ s0 ++ [">"%char] = s0 ++ (w1 ++ ">"%char :: w2)) by exact E.
  clear E.
  destruct (exists_last (l := ">"%char :: w2) ltac:(discriminate)) as (m & z & Hz).
  rewrite Hz in E'. rewrite !app_assoc in E'.
  apply app_inj_tail in E' as [E' Ez]. subst z.
  destruct w2 as [|b w2].
  - simpl in Hz. destruct m; [|destruct m; discriminate Hz].
    rewrite List.app_nil_r in E'. symmetry in E'.
    assert (Hin : In "<"%char w1).
    { apply (conjugate_bytes s0 w1 u E').
      destruct u as [|a u]; [contradiction|].
      unfold s0 in E'. simpl in E'. injection E' as <- _. now left. }
    rewrite forallb_forall in Hw1. specialize (Hw1 _ Hin). discriminate Hw1.
  - assert (Hin : In ">"%char (b :: w2)).
    { assert (L : last (">"%char :: b :: w2) "a"%char = ">"%char)
        by (rewrite Hz; apply last_last).
      rewrite <- L. change (last (">"%char :: b :: w2) "a"%char)
        with (last (b :: w2) "a"%char).
      clear. generalize b. induction w2; intros b0; simpl; auto.
      right. apply IHw2. }
    rewrite forallb_forall in Hw2. specialize (Hw2 _ Hin). discriminate Hw2.
Qed.

Lemma close_find_eq (name s : gostring) (pos : nat) :
  regexp.close_find name s pos
  = if regexp.close_match_here name s then Some (pos, pos + length s)
    else match s with
         | [] => None
         | _ :: r => regexp.close_find name r (S pos)
         end.
Proof. destruct s; reflexivity. Qed.

Lemma close_find_first (name pre tail : gostring) (pos : nat) :
  regexp.close_match_here name tail = true ->
  (forall j, j < length pre ->
             regexp.close_match_here name (skipn j (pre ++ tail)) = false) ->
  regexp.close_find name (pre ++ tail) pos
  = Some (pos + length pre, pos + length pre + length tail).
Proof.
  intros Ht. revert pos. induction pre as [|c pre IH]; intros pos Hpre.
  - simpl app. simpl length. rewrite Nat.add_0_r, close_find_eq, Ht.
    reflexivity.
  - pose proof (Hpre 0 ltac:(simpl; lia)) as H0.
    change (skipn 0 ((c :: pre) ++ tail)) with (c :: pre ++ tail) in H0.
    change ((c :: pre) ++ tail) with (c :: pre ++ tail).
    rewrite close_find_eq, H0, IH.
    + simpl length. f_equal. f_equal; lia.
    + intros j Hj. apply (Hpre (S j)). simpl; lia.
Qed.

Lemma closePattern_element (name pre : gostring) :
  regexp.closePattern_FindStringIndex name (pre ++ close_tag name)
  = Some (length pre, length pre + length (close_tag name)).
Proof.
  unfold regexp.closePattern_FindStringIndex.
  rewrite close_find_first; [reflexivity | apply close_match_here_tag |].
  intros j Hj. rewrite skipn_app.
  replace (j - length pre) with 0 by lia. simpl skipn at 2.
  apply close_tag_unique. intros E.
  apply (f_equal (@length _)) in E. rewrite length_skipn in E. simpl in E. lia.
Qed.

Lemma openPattern_element (name rest : gostring) :
  regexp.openPattern_FindStringIndex name ("<"%char :: name ++ ">"%char :: rest)
  = Some (0, length name + 2).
Proof.
  unfold regexp.openPattern_FindStringIndex.
  change (regexp.skip_re_space ("<"%char :: name ++ ">"%char :: rest))
    with ("<"%char :: name ++ ">"%char :: rest).
  rewrite Nat.sub_diag.
  change ("<"%char :: name ++ ">"%char :: rest)
    with (("<"%char :: name) ++ ">"%char :: rest).
  rewrite HasPrefix_app.
  change (0 + S (length name)) with (length ("<"%char :: name)).
  rewrite nth_error_app2, Nat.sub_diag by lia.
  simpl. do 2 f_equal. lia.
Qed.

End PatternFacts.

(** ** The payload decoder on a complete element *)

Section Decoder.

Lemma element_split (name inner : gostring) :
  element name inner
  = ("<"%char :: name ++ [">"%char]) ++ inner ++ close_tag name.
Proof.
  unfold element. simpl. f_equal. now rewrite <- app_assoc.
Qed.

Lemma element_length (name inner : gostring) :
  length (element name inner) = 2 * length name + length inner + 5.
Proof.
  unfold element, close_tag.
  repeat (cbn [length]; rewrite ?length_app). lia.
Qed.

Lemma slice_middle (a b c : gostring) :
  slice (a ++ b ++ c) (length a) (length a + length b) = Done b.
Proof.
  unfold slice.
  replace (length a <=? length a + length b) with true
    by (symmetry; apply Nat.leb_le; lia).
  replace (length a + length b <=? length (a ++ b ++ c)) with true
    by (symmetry; apply Nat.leb_le; rewrite !length_app; lia).
  simpl andb. cbv iota. rewrite skipn_app_length.
  replace (length a + length b - length a) with (length b) by lia.
  now rewrite firstn_app_length.
Qed.

Lemma TryParse_element (name inner : gostring) (ctr : Z) :
  name <> [] ->
  TryParseMcpToolCallXml (element name inner) name ctr
  = Done (decode_inner name inner ctr).
Proof.
  intros Hname. unfold TryParseMcpToolCallXml.
  apply is_empty_false in Hname. rewrite Hname.
  change (is_empty (element name inner)) with false. simpl orb. cbv iota.
  unfold element at 1. rewrite openPattern_element.
  replace (element name inner)
    with (("<"%char :: name ++ ">"%char :: inner) ++ close_tag name) at 1
    by (unfold element; simpl; now rewrite <- app_assoc).
  rewrite closePattern_element.
  assert (S : slice (element name inner) (length name + 2)
                (length ("<"%char :: name ++ ">"%char :: inner))
              = Done inner).
  { rewrite element_split.
    replace (length name + 2) with (length ("<"%char :: name ++ [">"%char]))
      by (cbn [length]; rewrite length_app; simpl; lia).
    replace (length ("<"%char :: name ++ ">"%char :: inner))
      with (length ("<"%char :: name ++ [">"%char]) + length inner)
      by (cbn [length]; rewrite !length_app; simpl; lia).
    apply slice_middle. }
  rewrite S. unfold bind, decode_inner.
  destruct (is_empty (strings.TrimSpace inner)).
  - now destruct (MakeToolUseID name ctr).
  - destruct (json.Unmarshal (strings.TrimSpace inner));
      [now destruct (MakeToolUseID name ctr) | reflexivity].
Qed.


End Decoder.

(** ** What the locator and the extractor return *)

Section LocatorFacts.

Variable buf : gostring.

Lemma locate_step_accepted (names : list gostring)
  (best : option (nat * gostring)) (name : gostring) :
  In name names ->
  (forall r, best = Some r -> accepted buf names r) ->
  forall r, locate_step buf best name = Some r -> accepted buf names r.
Proof.
  intros Hin Hbest r. unfold locate_step.
  destruct (strings.Index buf ("<"%char :: name)) as [idx|] eqn:Ei;
    [|apply Hbest].
  assert (Hnew : forall ok : match nth_error buf (idx + S (length name)) with
                             | Some ch => is_boundary ch = true
                             | None => True
                             end,
             match best with
             | Some (b, _) => if idx <? b then Some (idx, name) else best
             | None => Some (idx, name)
             end = Some r -> accepted buf names r).
  { intros ok H. destruct best as [[b bn]|].
    - destruct (idx <? b); [|now apply Hbest].
      injection H as <-. repeat split; assumption.
    - injection H as <-. repeat split; assumption. }
  change (length ("<"%char :: name)) with (S (length name)).
  destruct (nth_error buf (idx + S (length name))) as [ch|] eqn:En.
  - destruct (is_boundary ch) eqn:Eb; [now apply Hnew | apply Hbest].
  - now apply Hnew.
Qed.

Lemma locate_fold_accepted (all names : list gostring)
  (best : option (nat * gostring)) :
  incl names all ->
  (forall r, best = Some r -> accepted buf all r) ->
  forall r,
    fold_left (locate_step buf) names best = Some r -> accepted buf all r.
Proof.
  revert best. induction names as [|n names IH]; intros best Hincl Hbest r.
  - simpl. apply Hbest.
  - simpl. apply IH.
    + intros x Hx. apply Hincl. now right.
    + apply locate_step_accepted; [apply Hincl; now left | exact Hbest].
Qed.

End LocatorFacts.

Section ExtractorFacts.

Lemma findNextToolStartIndex_accepted (p : XmlStreamParser) (index : nat)
  (name : gostring) :
  findNextToolStartIndex p = Some (index, name) ->
  accepted (buffer p) (toolNames p) (index, name).
Proof.
  unfold findNextToolStartIndex. intros H.
  apply (locate_fold_accepted (buffer p) (toolNames p) (toolNames p) None);
    [apply incl_refl | discriminate | exact H].
Qed.

(** After the text before the tag is dropped, the tag opens the buffer. *)
Lemma accepted_opens (b : gostring) (names : list gostring) (index : nat)
  (name : gostring) :
  accepted b names (index, name) -> opens_at_start name (skipn index b).
Proof.
  intros (_ & Hi & Hb). simpl in *. split.
  - now apply Index_skipn.
  - now rewrite nth_error_skipn.
Qed.

Lemma findCloseTagEndIndex_bounds (p : XmlStreamParser) (name : gostring)
  (closeEnd : nat) :
  findCloseTagEndIndex p name = Some closeEnd ->
  1 <= closeEnd <= length (buffer p).
Proof.
  unfold findCloseTagEndIndex.
  destruct (strings.Index (buffer p) _) as [idx|] eqn:Ei; [|discriminate].
  destruct (length (buffer p) <=? _) eqn:El; [discriminate|].
  destruct (strings.Index (skipn _ (buffer p)) _) as [gt|] eqn:Eg;
    [|discriminate].
  intros [= <-]. apply Index_bound in Eg. rewrite length_skipn in Eg.
  apply Nat.leb_gt in El. simpl in Eg. lia.
Qed.

(** [findCloseTagEndIndex] fails only when no closing tag with its [>] is
    in the buffer. *)
Lemma findCloseTagEndIndex_None (p : XmlStreamParser) (name : gostring) :
  findCloseTagEndIndex p name = None -> ~ close_seen name (buffer p).
Proof.
  unfold findCloseTagEndIndex, close_seen.
  set (needle := "<"%char :: "/"%char :: name).
  intros H (a & b & c & E).
  assert (Ha : strings.HasPrefix (skipn (length a) (buffer p)) needle = true).
  { rewrite E, skipn_app_length. apply HasPrefix_app. }
  destruct (strings.Index (buffer p) needle) as [idx|] eqn:Ei.
  - assert (Hidx : idx <= length a).
    { destruct (Nat.le_gt_cases idx (length a)) as [L|L]; [exact L|].
      rewrite (Index_first _ _ _ _ Ei L) in Ha. discriminate Ha. }
    assert (Hlen : length (buffer p)
                   = length a + length needle + length b + 1 + length c).
    { rewrite E. rewrite !length_app. simpl. lia. }
    destruct (length (buffer p) <=? idx + length needle) eqn:El.
    + apply Nat.leb_le in El. lia.
    + destruct (strings.Index (skipn (idx + length needle) (buffer p))
                  [">"%char]) eqn:Eg; [discriminate|].
      pose proof (Index_None _ _
                    (length a + length needle + length b
                     - (idx + length needle)) Eg) as N.
      rewrite skipn_skipn in N.
      replace (length a + length needle + length b - (idx + length needle)
               + (idx + length needle))
        with (length (a ++ needle ++ b)) in N
        by (rewrite !length_app; lia).
      rewrite E in N.
      replace (a ++ needle ++ b ++ ">"%char :: c)
        with ((a ++ needle ++ b) ++ ">"%char :: c) in N
        by (now rewrite <- !app_assoc).
      rewrite skipn_app_length in N. simpl in N.
      discriminate N.
  - rewrite (Index_None _ _ (length a) Ei) in Ha. discriminate Ha.
Qed.

End ExtractorFacts.

(** ** The buffer between two pushes *)

Section BufferInvariant.

Lemma no_tag_invariant (p : XmlStreamParser) :
  buffer_invariant (with_buffer p (snd (splitBufferForPartialTag p))).
Proof.
  unfold splitBufferForPartialTag.
  destruct (strings.LastIndex (buffer p) ["<"%char]) as [lastLt|];
    [|now left].
  destruct (isPossibleToolTagPrefix p (skipn lastLt (buffer p))) eqn:E;
    [|now left].
  right; right. unfold isPossibleToolTagPrefix in E.
  destruct (strings.HasPrefix (skipn lastLt (buffer p)) ["<"%char]) eqn:Elt;
    [|discriminate].
  simpl in E. apply existsb_exists in E as (name & Hin & Hn).
  apply orb_true_iff in Hn. split; [exact Elt|]. now exists name.
Qed.

Lemma PushText_loop_invariant (fuel : nat) (p : XmlStreamParser) (ctr : Z)
  (results out : list ParseResult) (p' : XmlStreamParser) (ctr' : Z) :
  PushText_loop fuel p ctr results = Done (out, p', ctr') ->
  buffer_invariant p' /\ toolNames p' = toolNames p.
Proof.
  revert p ctr results.
  induction fuel as [|fuel IH]; intros p ctr results H; [discriminate|].
  cbn [PushText_loop] in H.
  assert (Hno : (let (emit, keep) := splitBufferForPartialTag p in
                 Done (if is_empty emit then results
                       else results ++ [text_result emit],
                       with_buffer p keep, ctr))
                = Done (out, p', ctr') ->
                buffer_invariant p' /\ toolNames p' = toolNames p).
  { pose proof (no_tag_invariant p) as Hinv.
    destruct (splitBufferForPartialTag p) as [emit keep].
    intros [= _ <- _]. split; [exact Hinv | reflexivity]. }
  destruct (findNextToolStartIndex p) as [[index name]|] eqn:Ef;
    [|exact (Hno H)].
  destruct (is_empty name); [exact (Hno H)|]. clear Hno.
  apply findNextToolStartIndex_accepted in Ef.
  set (p1 := if 0 <? index then with_buffer p (skipn index (buffer p)) else p)
    in *.
  assert (Hb1 : buffer p1 = skipn index (buffer p)).
  { unfold p1. destruct index; reflexivity. }
  assert (Hn1 : toolNames p1 = toolNames p).
  { unfold p1. destruct (0 <? index); reflexivity. }
  destruct (findCloseTagEndIndex p1 name) as [closeEnd|] eqn:Ec.
  - destruct (TryParseMcpToolCallXml (firstn closeEnd (buffer p1)) name ctr)
      as [[[parsed|] c1]|msg|]; simpl in H; try discriminate H;
      apply IH in H; destruct H as [Hinv Hn]; (split; [exact Hinv|]);
      rewrite Hn; exact Hn1.
  - injection H as _ <- _. split; [|exact Hn1].
    right; left. exists name. rewrite Hn1, Hb1.
    split; [exact (proj1 Ef)|].
    split; [exact (accepted_opens _ _ _ _ Ef)|].
    rewrite <- Hb1. now apply findCloseTagEndIndex_None.
Qed.

(** The loop never runs out of its budget. *)
Lemma PushText_loop_fuel (fuel : nat) (p : XmlStreamParser) (ctr : Z)
  (results : list ParseResult) :
  length (buffer p) < fuel ->
  PushText_loop fuel p ctr results <> OutOfFuel.
Proof.
  revert p ctr results.
  induction fuel as [|fuel IH]; intros p ctr results Hlen; [lia|].
  cbn [PushText_loop].
  assert (Hno : (let (emit, keep) := splitBufferForPartialTag p in
                 Done (if is_empty emit then results
                       else results ++ [text_result emit],
                       with_buffer p keep, ctr))
                <> OutOfFuel)
    by (destruct (splitBufferForPartialTag p); discriminate).
  destruct (findNextToolStartIndex p) as [[index name]|]; [|exact Hno].
  destruct (is_empty name); [exact Hno|]. clear Hno.
  set (p1 := if 0 <? index then with_buffer p (skipn index (buffer p)) else p).
  assert (Hb1 : length (buffer p1) <= length (buffer p)).
  { unfold p1. destruct (0 <? index); simpl; [rewrite length_skipn|]; lia. }
  destruct (findCloseTagEndIndex p1 name) as [closeEnd|] eqn:Ec;
    [|discriminate].
  apply findCloseTagEndIndex_bounds in Ec.
  assert (Hb2 : length (skipn closeEnd (buffer p1)) < fuel)
    by (rewrite length_skipn; lia).
  destruct (TryParseMcpToolCallXml (firstn closeEnd (buffer p1)) name ctr)
    as [[[parsed|] c1]|msg|] eqn:Et; simpl; try discriminate;
    try (apply IH; exact Hb2).
  exfalso. revert Et. unfold TryParseMcpToolCallXml, slice, bind.
  repeat match goal with
         | |- context [if ?b then _ else _] => destruct b
         | |- context [match ?x with _ => _ end] => destruct x
         end; discriminate.
Qed.

End BufferInvariant.

(** Every push returns segments or panics: the loop budget is never the
    reason for stopping. *)
Lemma PushText_total (p : XmlStreamParser) (text : gostring) (ctr : Z) :
  PushText p text ctr <> OutOfFuel.
Proof.
  unfold PushText. destruct (is_empty text); [discriminate|].
  apply PushText_loop_fuel. lia.
Qed.

(** C7.  In every state a parser reaches, after each [PushText] that
    returns, the buffer is empty, or holds an incomplete element (an
    accepted opening tag of a known name whose closing tag has not appeared
    up to its [>]), or is a suffix starting at [<] that is a prefix of the
    opening or closing form of a known name. *)
Theorem PushText_buffer_invariant (names : list gostring)
  (p : XmlStreamParser) :
  reachable names p -> buffer_invariant p.
Proof.
  induction 1 as [|p text ctr out p' ctr' Hr IH Hpush].
  - now left.
  - unfold PushText in Hpush. destruct (is_empty text).
    + injection Hpush as _ <- _. exact IH.
    + now apply PushText_loop_invariant in Hpush.
Qed.

Lemma PushText_buffer_invariant_witness :
  buffer_invariant
    {| toolNames := [str "tool"]; buffer := str "<tool>{" |}.
Proof.
  apply (PushText_buffer_invariant [str "tool"]).
  apply (reach_push [str "tool"] (NewXmlStreamParser [str "tool"])
           (str "hello <tool>{") 0%Z
           [text_result (str "hello ")] _ 0%Z).
  - apply reach_new.
  - reflexivity.
Defined.

(** ** One complete element pushed into a fresh parser *)

Section ElementFacts.

Lemma tag_name_no_lt (name : gostring) : tag_name name -> no_lt name.
Proof.
  intros [_ H] Hin. rewrite Forall_forall in H. now specialize (H _ Hin).
Qed.

Lemma HasPrefix_cons_lt (c : ascii) (s m : gostring) :
  c <> "<"%char -> strings.HasPrefix (c :: s) ("<"%char :: m) = false.
Proof.
  intros Hc. simpl. apply Ascii.eqb_neq in Hc. now rewrite Hc.
Qed.

(** A search for a string that starts with [<] skips a prefix without [<]. *)
Lemma Index_skip (x z m : gostring) :
  no_lt x ->
  strings.Index (x ++ z) ("<"%char :: m)
  = option_map (Nat.add (length x)) (strings.Index z ("<"%char :: m)).
Proof.
  intros Hx. induction x as [|c x IH].
  - simpl. now destruct (strings.Index z ("<"%char :: m)).
  - change ((c :: x) ++ z) with (c :: x ++ z).
    cbn [strings.Index]. rewrite HasPrefix_cons_lt.
    + rewrite IH by (intros H; apply Hx; now right).
      now destruct (strings.Index z ("<"%char :: m)).
    + intros ->. apply Hx. now left.
Qed.

Lemma Index_no_lt (x m : gostring) :
  no_lt x -> strings.Index x ("<"%char :: m) = None.
Proof.
  intros Hx. rewrite <- (List.app_nil_r x), Index_skip by assumption.
  reflexivity.
Qed.

Lemma Index_here (s sub : gostring) :
  strings.HasPrefix s sub = true -> strings.Index s sub = Some 0.
Proof. intros H. destruct s; simpl; now rewrite H. Qed.

Lemma Index_later (c : ascii) (s sub : gostring) :
  strings.HasPrefix (c :: s) sub = false ->
  strings.Index (c :: s) sub = option_map S (strings.Index s sub).
Proof. intros H. simpl. now rewrite H. Qed.

(** A tag name that is a prefix of [name ++ ">" :: rest] is [name] itself or
    stops at a byte of [name]. *)
Lemma prefix_of_name (name rest m : gostring) :
  Forall (fun c => is_tag_byte c = false) m ->
  strings.HasPrefix (name ++ ">"%char :: rest) m = true ->
  m = name
  \/ exists c, nth_error (name ++ ">"%char :: rest) (length m) = Some c
               /\ In c name.
Proof.
  revert m. induction name as [|a name IH]; intros m Hm H.
  - destruct m as [|c m]; [now left|].
    cbn [strings.HasPrefix app] in H. apply andb_true_iff in H as [H _].
    apply Ascii.eqb_eq in H. subst c. inversion Hm as [|? ? Hc _].
    discriminate Hc.
  - destruct m as [|c m].
    + right. exists a. split; [reflexivity | now left].
    + cbn [strings.HasPrefix app] in H. apply andb_true_iff in H as [Hc H].
      apply Ascii.eqb_eq in Hc. subst c.
      inversion Hm as [|? ? _ Hm']. subst.
      destruct (IH m Hm' H) as [->|(c & Hn & Hin)]; [now left|].
      right. exists c. split; [exact Hn | now right].
Qed.

(** A prefix test against a string whose only [<] may be its first byte
    does not reach across a later [<]. *)
Lemma HasPrefix_no_straddle (a y r : gostring) :
  no_lt r ->
  strings.HasPrefix (a ++ "<"%char :: y) r = true ->
  strings.HasPrefix a r = true.
Proof.
  revert r. induction a as [|c a IH]; intros r Hr H.
  - destruct r as [|d r]; [reflexivity|].
    cbn [strings.HasPrefix app] in H. apply andb_true_iff in H as [H _].
    apply Ascii.eqb_eq in H. subst d. exfalso. apply Hr. now left.
  - destruct r as [|d r]; [reflexivity|].
    cbn [strings.HasPrefix app] in *. apply andb_true_iff in H as [Hc H].
    rewrite Hc. cbn [andb]. apply IH; [|exact H].
    intros Hin. apply Hr. now right.
Qed.

(** What one turn of the locator loop can do: keep [best], or replace it by
    the first occurrence of the name when that comes earlier. *)
Lemma locate_step_result (buf : gostring) (best : option (nat * gostring))
  (m : gostring) :
  locate_step buf best m = best
  \/ exists idx,
       strings.Index buf ("<"%char :: m) = Some idx
       /\ locate_step buf best m = Some (idx, m)
       /\ match best with
          | Some (b, _) => idx < b
          | None => True
          end.
Proof.
  unfold locate_step.
  destruct (strings.Index buf ("<"%char :: m)) as [idx|]; [|now left].
  assert (H : match best with
              | Some (b, _) => if idx <? b then Some (idx, m) else best
              | None => Some (idx, m)
              end = best
              \/ exists idx0,
                   Some idx = Some idx0
                   /\ match best with
                      | Some (b, _) =>
                          if idx <? b then Some (idx, m) else best
                      | None => Some (idx, m)
                      end = Some (idx0, m)
                   /\ match best with
                      | Some (b, _) => idx0 < b
                      | None => True
                      end).
  { destruct best as [[b bn]|].
    - destruct (idx <? b) eqn:E; [|now left].
      right. exists idx. apply Nat.ltb_lt in E. auto.
    - right. exists idx. auto. }
  destruct (nth_error buf (idx + length ("<"%char :: m))) as [ch|];
    [destruct (is_boundary ch); [exact H | now left] | exact H].
Qed.

Variables (name inner : gostring).
Hypothesis Hname : tag_name name.

(** The interior does not contain the closing literal [</name]. *)
Hypothesis Hinner :
  strings.Index inner ("<"%char :: "/"%char :: name) = None.

Lemma locate_step_own (best : option (nat * gostring)) :
  later best \/ best = Some (0, name) ->
  locate_step (element name inner) best name = Some (0, name).
Proof.
  intros Hbest. unfold locate_step.
  rewrite Index_here by (unfold element;
    change ("<"%char :: name ++ ">"%char :: inner ++ close_tag name)
      with (("<"%char :: name) ++ ">"%char :: inner ++ close_tag name);
    apply HasPrefix_app).
  unfold element.
  change ("<"%char :: name ++ ">"%char :: inner ++ close_tag name)
    with (("<"%char :: name) ++ ">"%char :: inner ++ close_tag name).
  rewrite nth_error_app2, Nat.sub_diag by (simpl; lia).
  cbn [nth_error]. change (is_boundary ">"%char) with true. cbv iota.
  destruct Hbest as [Hl| ->]; [|reflexivity].
  destruct best as [[b bn]|]; [|reflexivity].
  simpl in Hl. apply Nat.ltb_lt in Hl. now rewrite Hl.
Qed.

(** Another tag name that starts the element is a proper prefix of [name],
    followed by a byte of [name]: it is rejected. *)
Lemma locate_step_prefix (best : option (nat * gostring)) (m : gostring) :
  tag_name m -> m <> name ->
  strings.HasPrefix (element name inner) ("<"%char :: m) = true ->
  locate_step (element name inner) best m = best.
Proof.
  intros Hm Hneq E. unfold locate_step.
  rewrite (Index_here _ _ E). unfold element in *.
  cbn [strings.HasPrefix] in E. rewrite Ascii.eqb_refl in E.
  cbn [andb] in E.
  destruct (prefix_of_name _ _ _ (proj2 Hm) E) as [->|(c & Hn & Hin)];
    [contradiction|].
  change (0 + length ("<"%char :: m)) with (S (length m)).
  cbn [nth_error]. rewrite Hn.
  destruct Hname as [_ Hf]. rewrite Forall_forall in Hf.
  specialize (Hf _ Hin). unfold is_tag_byte in Hf.
  apply orb_false_iff in Hf as [_ ->]. reflexivity.
Qed.

Lemma locate_step_other_later (best : option (nat * gostring))
  (m : gostring) :
  tag_name m -> m <> name -> later best ->
  later (locate_step (element name inner) best m).
Proof.
  intros Hm Hneq Hbest.
  destruct (strings.HasPrefix (element name inner) ("<"%char :: m)) eqn:E.
  - now rewrite locate_step_prefix.
  - destruct (locate_step_result (element name inner) best m)
      as [->|(idx & Hi & -> & _)]; [exact Hbest|].
    simpl. destruct idx; [|lia].
    apply Index_skipn in Hi. simpl skipn in Hi. congruence.
Qed.

Lemma locate_step_other_keep (m : gostring) :
  locate_step (element name inner) (Some (0, name)) m = Some (0, name).
Proof.
  destruct (locate_step_result (element name inner) (Some (0, name)) m)
    as [->|(idx & _ & _ & H)]; [reflexivity | lia].
Qed.

Lemma locate_fold_element (names : list gostring)
  (best : option (nat * gostring)) :
  Forall tag_name names ->
  (best = Some (0, name) ->
   fold_left (locate_step (element name inner)) names best = Some (0, name))
  /\ (later best ->
      (In name names ->
       fold_left (locate_step (element name inner)) names best
       = Some (0, name))
      /\ (~ In name names ->
          later (fold_left (locate_step (element name inner)) names best))).
Proof.
  revert best. induction names as [|m names IH]; intros best Hn.
  - cbn [fold_left]. split; [auto|]. intros Hl. split; [intros []|auto].
  - inversion Hn as [|? ? Hm Hn']. subst. cbn [fold_left]. split.
    + intros ->. rewrite locate_step_other_keep.
      now apply (proj1 (IH _ Hn')).
    + intros Hl. destruct (list_eq_dec ascii_dec m name) as [->|Hneq].
      * rewrite locate_step_own by auto. split.
        -- intros _. now apply (proj1 (IH _ Hn')).
        -- intros H. exfalso. apply H. now left.
      * pose proof (locate_step_other_later best m Hm Hneq Hl) as Hl'.
        destruct (IH (locate_step (element name inner) best m) Hn')
          as [_ IH2]. specialize (IH2 Hl'). split.
        -- intros [E|Hin]; [contradiction|]. now apply IH2.
        -- intros H. apply IH2. intros Hin. apply H. now right.
Qed.

Lemma findNext_element (names : list gostring) :
  Forall tag_name names -> In name names ->
  findNextToolStartIndex
    {| toolNames := names; buffer := element name inner |}
  = Some (0, name).
Proof.
  intros Hn Hin. unfold findNextToolStartIndex. cbn [toolNames buffer].
  now apply (proj2 (locate_fold_element names None Hn)).
Qed.

Lemma needle_no_lt : no_lt ("/"%char :: name).
Proof.
  intros [H|H]; [discriminate H | now apply (tag_name_no_lt _ Hname)].
Qed.

(** The closing tag is the first occurrence of [</name] after the interior
    starts. *)
Lemma Index_interior (a z : gostring) :
  strings.Index a ("<"%char :: "/"%char :: name) = None ->
  strings.Index (a ++ ("<"%char :: "/"%char :: name) ++ z)
    ("<"%char :: "/"%char :: name)
  = Some (length a).
Proof.
  induction a as [|c a IH]; intros Ha.
  - apply Index_here.
    exact (HasPrefix_app ("<"%char :: "/"%char :: name) z).
  - cbn [strings.Index] in Ha.
    destruct (strings.HasPrefix (c :: a) ("<"%char :: "/"%char :: name))
      eqn:E; [discriminate|].
    destruct (strings.Index a ("<"%char :: "/"%char :: name)) eqn:Ea;
      [discriminate|].
    change ((c :: a) ++ ("<"%char :: "/"%char :: name) ++ z)
      with (c :: a ++ ("<"%char :: "/"%char :: name) ++ z).
    assert (N : strings.HasPrefix
                  (c :: a ++ ("<"%char :: "/"%char :: name) ++ z)
                  ("<"%char :: "/"%char :: name) = false).
    { destruct (strings.HasPrefix
                  (c :: a ++ ("<"%char :: "/"%char :: name) ++ z)
                  ("<"%char :: "/"%char :: name)) eqn:E'; [|reflexivity].
      rewrite HasPrefix_cons in E, E'.
      apply andb_true_iff in E' as [Hc E'].
      rewrite Hc in E. cbn [andb] in E.
      change (("<"%char :: "/"%char :: name) ++ z)
        with ("<"%char :: ("/"%char :: name) ++ z) in E'.
      apply HasPrefix_no_straddle in E'; [|apply needle_no_lt].
      congruence. }
    rewrite (Index_later _ _ _ N), (IH eq_refl). reflexivity.
Qed.

Lemma findClose_element (names : list gostring) :
  findCloseTagEndIndex
    {| toolNames := names; buffer := element name inner |} name
  = Some (length (element name inner)).
Proof.
  unfold findCloseTagEndIndex. cbn [buffer].
  set (needle := "<"%char :: "/"%char :: name).
  assert (Hidx : strings.Index (element name inner) needle
                 = Some (length ("<"%char :: name ++ ">"%char :: inner))).
  { unfold element, needle.
    rewrite Index_later.
    - replace (name ++ ">"%char :: inner ++ close_tag name)
        with ((name ++ [">"%char])
              ++ inner ++ ("<"%char :: "/"%char :: name) ++ [">"%char])
        by (unfold close_tag; rewrite <- app_assoc; reflexivity).
      rewrite Index_skip, (Index_interior inner [">"%char] Hinner).
      + cbn [option_map length]. rewrite !length_app. cbn [length].
        f_equal. lia.
      + intros H. apply in_app_iff in H as [H|[H|[]]];
          [now apply (tag_name_no_lt _ Hname) | discriminate H].
    - destruct Hname as [Hne Hf]. destruct name as [|c nm]; [contradiction|].
      inversion Hf as [|? ? Hc _]. subst. cbn [strings.HasPrefix app].
      rewrite Ascii.eqb_refl. cbn [andb].
      destruct (Ascii.eqb c "/"%char) eqn:E; [|reflexivity].
      apply Ascii.eqb_eq in E. subst c. discriminate Hc. }
  rewrite Hidx.
  assert (Hlen : length (element name inner)
                 = length ("<"%char :: name ++ ">"%char :: inner)
                   + length needle + 1).
  { rewrite element_length. unfold needle.
    repeat (cbn [length]; rewrite ?length_app). lia. }
  rewrite Hlen.
  replace (length ("<"%char :: name ++ ">"%char :: inner) + length needle + 1
           <=? length ("<"%char :: name ++ ">"%char :: inner) + length needle)
    with false by (symmetry; apply Nat.leb_gt; lia).
  replace (element name inner)
    with ((("<"%char :: name ++ ">"%char :: inner) ++ needle) ++ [">"%char]).
  - replace (length ("<"%char :: name ++ ">"%char :: inner) + length needle)
      with (length (("<"%char :: name ++ ">"%char :: inner) ++ needle))
      by (now rewrite length_app).
    rewrite skipn_app_length. simpl. f_equal. lia.
  - unfold element, close_tag, needle. simpl. f_equal.
    repeat (rewrite <- app_assoc; simpl). reflexivity.
Qed.

End ElementFacts.

Section ElementPush.

Lemma findNext_empty (names : list gostring) :
  findNextToolStartIndex {| toolNames := names; buffer := [] |} = None.
Proof.
  unfold findNextToolStartIndex. cbn [toolNames buffer].
  induction names as [|n names IH]; [reflexivity | exact IH].
Qed.

Lemma PushText_loop_empty (fuel : nat) (names : list gostring) (ctr : Z)
  (results : list ParseResult) :
  PushText_loop (S fuel) {| toolNames := names; buffer := [] |} ctr results
  = Done (results, {| toolNames := names; buffer := [] |}, ctr).
Proof.
  cbn [PushText_loop]. now rewrite findNext_empty.
Qed.

(** A parser over tag names with an empty buffer, pushed one complete
    element of a known name whose interior does not contain the closing
    literal, returns the one segment the decoder makes of it and keeps
    nothing in its buffer. *)
Lemma PushText_element (names : list gostring) (name inner : gostring)
  (ctr : Z) :
  Forall tag_name names -> In name names ->
  strings.Index inner ("<"%char :: "/"%char :: name) = None ->
  PushText {| toolNames := names; buffer := [] |} (element name inner) ctr
  = Done ([segment_of name inner ctr],
          {| toolNames := names; buffer := [] |},
          snd (decode_inner name inner ctr)).
Proof.
  intros Hnames Hin Hinner.
  assert (Hname : tag_name name)
    by (rewrite Forall_forall in Hnames; now apply Hnames).
  unfold PushText. change (is_empty (element name inner)) with false.
  cbv iota. unfold with_buffer. cbn [toolNames buffer app].
  cbn [PushText_loop].
  rewrite (findNext_element name inner Hname names Hnames Hin).
  replace (is_empty name) with false
    by (symmetry; apply is_empty_false; apply Hname).
  change (0 <? 0) with false. cbv iota.
  rewrite (findClose_element name inner Hname Hinner names).
  cbn [toolNames buffer]. rewrite firstn_all, skipn_all.
  rewrite TryParse_element by apply Hname.
  unfold bind, segment_of.
  replace (length (element name inner))
    with (S (2 * length name + length inner + 4))
    by (rewrite element_length; lia).
  change (with_buffer {| toolNames := names; buffer := element name inner |} [])
    with {| toolNames := names; buffer := [] |}.
  destruct (decode_inner name inner ctr) as [[call|] c1];
    now rewrite PushText_loop_empty.
Qed.

End ElementPush.

(** ** Names that share a prefix *)

Section NewParser.

Lemma New_names_In (names : list gostring) (name : gostring) :
  In name (toolNames (NewXmlStreamParser names)) <->
  In name names /\ name <> [].
Proof.
  unfold NewXmlStreamParser. cbn [toolNames].
  rewrite nodup_In, filter_In, negb_true_iff, is_empty_false. tauto.
Qed.

Lemma New_names_tag (names : list gostring) :
  Forall tag_name names ->
  Forall tag_name (toolNames (NewXmlStreamParser names)).
Proof.
  rewrite !Forall_forall. intros H x Hx. apply New_names_In in Hx.
  now apply H.
Qed.

Lemma New_parser (names : list gostring) :
  NewXmlStreamParser names
  = {| toolNames := toolNames (NewXmlStreamParser names); buffer := [] |}.
Proof. reflexivity. Qed.

End NewParser.




(** ** Empty bodies *)

Section EmptyBody.


End EmptyBody.



(** ** Bodies that do not decode *)

(** The passthrough of a malformed body: when the trimmed interior is not
    empty and [json.Unmarshal] fails on it, the whole element comes out as
    one text segment and no identifier is minted. *)
Lemma malformed_body_is_text (names : list gostring) (name inner : gostring)
  (e : json.error) (ctr : Z) :
  Forall tag_name names -> In name names ->
  strings.Index inner ("<"%char :: "/"%char :: name) = None ->
  strings.TrimSpace inner <> [] ->
  json.Unmarshal (strings.TrimSpace inner) = json.Err e ->
  PushText (NewXmlStreamParser names) (element name inner) ctr
  = Done ([text_result (element name inner)], NewXmlStreamParser names, ctr).
Proof.
  intros Hnames Hin Hinner Hne Herr.
  assert (Hname : name <> [])
    by (rewrite Forall_forall in Hnames; now apply Hnames).
  rewrite New_parser at 1.
  rewrite PushText_element;
    [| now apply New_names_tag | now apply New_names_In | exact Hinner].
  unfold segment_of, decode_inner.
  apply is_empty_false in Hne. now rewrite Hne, Herr.
Qed.

(** ** Bodies that are JSON but not objects *)




(** * Further properties of the package *)

(** ** The name filter *)

Section NameFilter.

Lemma GetMcpToolNames_fold (tools acc : list gostring) :
  fold_left
    (fun result name => if IsMcpToolName name then result ++ [name] else result)
    tools acc
  = acc ++ filter IsMcpToolName tools.
Proof.
  revert acc. induction tools as [|t tools IH]; intros acc; simpl.
  - now rewrite List.app_nil_r.
  - rewrite IH. destruct (IsMcpToolName t); [|reflexivity].
    now rewrite <- app_assoc.
Qed.

End NameFilter.

(** X1.  [GetMcpToolNames] returns exactly the names that start with
    [mcp__], in the order and with the repetitions of its argument: a name
    is in the result when it is in the argument and is an MCP name, the
    result of a concatenation is the concatenation of the results, and a
    second pass changes nothing. *)
Theorem GetMcpToolNames_filter (tools more : list gostring) :
  GetMcpToolNames tools = filter IsMcpToolName tools
  /\ (forall name,
        In name (GetMcpToolNames tools) <->
        In name tools /\ strings.HasPrefix name (str "mcp__") = true)
  /\ GetMcpToolNames (tools ++ more)
     = GetMcpToolNames tools ++ GetMcpToolNames more
  /\ GetMcpToolNames (GetMcpToolNames tools) = GetMcpToolNames tools.
Proof.
  assert (E : forall l, GetMcpToolNames l = filter IsMcpToolName l)
    by (intros l; unfold GetMcpToolNames; now rewrite GetMcpToolNames_fold).
  rewrite !E. split; [reflexivity|]. split; [|split].
  - intros name. now rewrite filter_In.
  - apply filter_app.
  - clear E. induction tools as [|t tools IH]; [reflexivity|].
    simpl. destruct (IsMcpToolName t) eqn:Et; [|exact IH].
    simpl. now rewrite Et, IH.
Qed.

(** ** Identifiers of different tools *)

(** X2.  An identifier determines the tool name and the counter value it
    was minted from: two calls of [MakeToolUseID] return the same identifier
    only for the same name and the same new counter value, whatever dashes
    and digits the names contain. *)
Theorem MakeToolUseID_injective (name name' : gostring) (ctr ctr' : Z) :
  fst (MakeToolUseID name ctr) = fst (MakeToolUseID name' ctr') ->
  name = name'
  /\ snd (MakeToolUseID name ctr) = snd (MakeToolUseID name' ctr').
Proof.
  unfold MakeToolUseID. cbn [fst snd]. intros H.
  apply split_at_last in H; try apply format_uint_no_dash.
  destruct H as [Hn Hd]. split; [exact Hn|].
  apply format_uint_inj in Hd; [exact Hd| |];
    apply Z.mod_pos_bound; reflexivity.
Qed.

Lemma MakeToolUseID_injective_witness :
  str "a" = str "a"
  /\ snd (MakeToolUseID (str "a") 0%Z)
     = snd (MakeToolUseID (str "a") uint64_modulus).
Proof.
  apply (MakeToolUseID_injective (str "a") (str "a") 0%Z uint64_modulus).
  vm_compute. reflexivity.
Defined.

(** ** The standalone decoder *)

Section DecoderShape.



End DecoderShape.


Section DecoderAccepts.








End DecoderAccepts.



(** ** The locator, the extractor and the guard *)

Section LocatorSpec.

Variable buf : gostring.

Lemma locate_step_spec (names : list gostring)
  (best : option (nat * gostring)) (name : gostring) :
  (match best with
   | Some r => accepted buf names r
               /\ forall r', accepted buf names r' -> fst r <= fst r'
   | None => forall r', ~ accepted buf names r'
   end) ->
  match locate_step buf best name with
  | Some r => accepted buf (names ++ [name]) r
              /\ forall r', accepted buf (names ++ [name]) r' ->
                            fst r <= fst r'
  | None => forall r', ~ accepted buf (names ++ [name]) r'
  end.
Proof.
  intros Hbest.
  assert (Hold : forall r, accepted buf names r ->
                           accepted buf (names ++ [name]) r).
  { intros r (Hin & H). split; [apply in_app_iff; now left | exact H]. }
  assert (Hsplit : forall r', accepted buf (names ++ [name]) r' ->
                              accepted buf names r' \/ snd r' = name).
  { intros r' (Hin & H). apply in_app_iff in Hin as [Hin|[Hin|[]]];
      [left; now split | now right]. }
  assert (Hkeep :
    (forall r', snd r' = name -> ~ accepted buf (names ++ [name]) r') ->
    match best with
    | Some r => accepted buf (names ++ [name]) r
                /\ forall r', accepted buf (names ++ [name]) r' ->
                              fst r <= fst r'
    | None => forall r', ~ accepted buf (names ++ [name]) r'
    end).
  { intros Hno. destruct best as [r|].
    - destruct Hbest as [Ha Hmin]. split; [now apply Hold|].
      intros r' Hr'. destruct (Hsplit r' Hr') as [H|H];
        [now apply Hmin | now destruct (Hno r' H)].
    - intros r' Hr'. destruct (Hsplit r' Hr') as [H|H];
        [now apply (Hbest r') | now apply (Hno r' H)]. }
  unfold locate_step.
  destruct (strings.Index buf ("<"%char :: name)) as [idx|] eqn:Ei.
  - assert (Hnew :
      match nth_error buf (idx + S (length name)) with
      | Some ch => is_boundary ch = true
      | None => True
      end ->
      match match best with
            | Some (b, _) => if idx <? b then Some (idx, name) else best
            | None => Some (idx, name)
            end with
      | Some r => accepted buf (names ++ [name]) r
                  /\ forall r', accepted buf (names ++ [name]) r' ->
                                fst r <= fst r'
      | None => forall r', ~ accepted buf (names ++ [name]) r'
      end).
    { intros Hb.
      assert (Hacc : accepted buf (names ++ [name]) (idx, name)).
      { split; [apply in_app_iff; right; now left|]. now split. }
      assert (Hidx : forall r', snd r' = name ->
                                accepted buf (names ++ [name]) r' ->
                                fst r' = idx).
      { intros [j m] Hm (_ & Hj & _). simpl in *. subst m. congruence. }
      destruct best as [[b bn]|].
      - destruct Hbest as [Ha Hmin]. destruct (idx <? b) eqn:E.
        + apply Nat.ltb_lt in E. split; [exact Hacc|].
          intros r' Hr'. destruct (Hsplit r' Hr') as [H|H].
          * specialize (Hmin r' H). simpl in *. lia.
          * rewrite (Hidx r' H Hr'). simpl. lia.
        + apply Nat.ltb_ge in E. split; [now apply Hold|].
          intros r' Hr'. destruct (Hsplit r' Hr') as [H|H].
          * now apply Hmin.
          * rewrite (Hidx r' H Hr'). simpl. lia.
      - split; [exact Hacc|]. intros r' Hr'.
        destruct (Hsplit r' Hr') as [H|H].
        + now destruct (Hbest r').
        + rewrite (Hidx r' H Hr'). simpl. lia. }
    change (length ("<"%char :: name)) with (S (length name)).
    destruct (nth_error buf (idx + S (length name))) as [ch|] eqn:En.
    + destruct (is_boundary ch) eqn:Eb; [now apply Hnew|].
      apply Hkeep. intros [j m] Hm (_ & Hj & Hb). simpl in *. subst m.
      rewrite Ei in Hj. injection Hj as <-. rewrite En in Hb. congruence.
    + now apply Hnew.
  - apply Hkeep. intros [j m] Hm (_ & Hj & _). simpl in *. subst m.
    congruence.
Qed.

Lemma locate_fold_spec (done names : list gostring)
  (best : option (nat * gostring)) :
  (match best with
   | Some r => accepted buf done r
               /\ forall r', accepted buf done r' -> fst r <= fst r'
   | None => forall r', ~ accepted buf done r'
   end) ->
  match fold_left (locate_step buf) names best with
  | Some r => accepted buf (done ++ names) r
              /\ forall r', accepted buf (done ++ names) r' ->
                            fst r <= fst r'
  | None => forall r', ~ accepted buf (done ++ names) r'
  end.
Proof.
  revert done best. induction names as [|n names IH]; intros done best H.
  - simpl. now rewrite List.app_nil_r.
  - simpl. replace (done ++ n :: names) with ((done ++ [n]) ++ names)
      by (now rewrite <- app_assoc).
    apply IH. now apply locate_step_spec.
Qed.

End LocatorSpec.

(** X5.  What [findNextToolStartIndex] returns: among the known names whose
    first occurrence [<name] in the buffer is followed by a boundary byte or
    by the end of the buffer, one whose occurrence has the smallest index,
    with that index; and "not found" exactly when there is no such name.
    Only the first occurrence of each name counts. *)
Theorem findNextToolStartIndex_spec (p : XmlStreamParser) :
  match findNextToolStartIndex p with
  | Some (index, name) =>
      accepted (buffer p) (toolNames p) (index, name)
      /\ forall j m, accepted (buffer p) (toolNames p) (j, m) -> index <= j
  | None => forall j m, ~ accepted (buffer p) (toolNames p) (j, m)
  end.
Proof.
  unfold findNextToolStartIndex.
  pose proof (locate_fold_spec (buffer p) [] (toolNames p) None) as H.
  simpl in H.
  destruct (fold_left (locate_step (buffer p)) (toolNames p) None)
    as [[index name]|].
  - destruct H as [Ha Hmin]; [intros r' (Hin & _); destruct Hin|].
    split; [exact Ha|]. intros j m Hjm. apply (Hmin (j, m) Hjm).
  - intros j m. apply H. intros r' (Hin & _). destruct Hin.
Qed.

Section ExtractorSpec.

Lemma Index_gt (s : gostring) (j : nat) :
  strings.Index s [">"%char] = Some j ->
  exists b c, s = b ++ ">"%char :: c /\ length b = j /\ ~ In ">"%char b.
Proof.
  intros H. destruct (Index_Some _ _ _ H) as (b & c & Hs & Hj).
  exists b, c. repeat split; auto. intros Hin.
  apply in_split in Hin as (b1 & b2 & Hb).
  assert (L : length b1 < j) by (rewrite <- Hj, Hb, length_app; simpl; lia).
  pose proof (Index_first _ _ _ _ H L) as N.
  rewrite Hs, Hb in N. rewrite <- !app_assoc in N.
  rewrite skipn_app_length in N. discriminate N.
Qed.

End ExtractorSpec.

(** X6.  What [findCloseTagEndIndex] returns: "not found" exactly when the
    buffer holds no closing literal [</name] with a [>] after it; otherwise
    an index within the buffer, just after the first [>] that follows the
    first occurrence of the closing literal. *)
Theorem findCloseTagEndIndex_spec (p : XmlStreamParser) (name : gostring) :
  match findCloseTagEndIndex p name with
  | Some closeEnd =>
      1 <= closeEnd <= length (buffer p)
      /\ exists a b,
           firstn closeEnd (buffer p)
           = a ++ ("<"%char :: "/"%char :: name) ++ b ++ [">"%char]
           /\ strings.Index (buffer p) ("<"%char :: "/"%char :: name)
              = Some (length a)
           /\ ~ In ">"%char b
  | None => ~ close_seen name (buffer p)
  end.
Proof.
  destruct (findCloseTagEndIndex p name) as [closeEnd|] eqn:E;
    [|now apply findCloseTagEndIndex_None].
  split; [now apply (findCloseTagEndIndex_bounds p name)|].
  unfold findCloseTagEndIndex in E.
  set (needle := "<"%char :: "/"%char :: name) in *.
  destruct (strings.Index (buffer p) needle) as [idx|] eqn:Ei; [|discriminate].
  destruct (length (buffer p) <=? idx + length needle); [discriminate|].
  destruct (strings.Index (skipn (idx + length needle) (buffer p)) [">"%char])
    as [gt|] eqn:Eg; [|discriminate].
  injection E as <-.
  destruct (Index_Some _ _ _ Ei) as (a & rest & Hbuf & Ha).
  apply Index_gt in Eg as (b & c & Hs & Hb & Hnb).
  assert (Hrest : rest = b ++ ">"%char :: c).
  { rewrite <- Hs, Hbuf, app_assoc.
    replace (idx + length needle) with (length (a ++ needle))
      by (rewrite length_app; lia).
    now rewrite skipn_app_length. }
  exists a, b. repeat split; [|congruence|exact Hnb].
  rewrite Hbuf, Hrest.
  replace (a ++ needle ++ b ++ ">"%char :: c)
    with ((a ++ needle ++ b ++ [">"%char]) ++ c)
    by (rewrite <- !app_assoc; reflexivity).
  assert (L : idx + length needle + gt + 1
              = length (a ++ needle ++ b ++ [">"%char]))
    by (rewrite !length_app; simpl; lia).
  change (firstn (idx + length needle + gt + 1)
            ((a ++ needle ++ b ++ [">"%char]) ++ c)
          = a ++ needle ++ b ++ [">"%char]).
  rewrite L. apply firstn_app_length.
Qed.

Section GuardSpec.

Lemma LastIndex_lt_Some (s : gostring) (j : nat) :
  strings.LastIndex s ["<"%char] = Some j ->
  exists a rest, s = a ++ "<"%char :: rest /\ length a = j /\ no_lt rest.
Proof.
  revert j. induction s as [|c s IH]; intros j H; [discriminate|].
  cbn [strings.LastIndex] in H.
  destruct (strings.LastIndex s ["<"%char]) as [i|] eqn:Ei.
  - injection H as <-. destruct (IH i eq_refl) as (a & rest & -> & <- & Hr).
    exists (c :: a), rest. repeat split; auto.
  - rewrite HasPrefix_cons in H. cbn [strings.HasPrefix andb] in H.
    rewrite andb_true_r in H.
    destruct (Ascii.eqb c "<"%char) eqn:Ec; [|discriminate].
    apply Ascii.eqb_eq in Ec. subst c. injection H as <-.
    exists [], s. repeat split; auto.
    clear IH. induction s as [|d s IHs]; [intros []|].
    cbn [strings.LastIndex] in Ei.
    destruct (strings.LastIndex s ["<"%char]); [discriminate|].
    rewrite HasPrefix_cons in Ei. cbn [strings.HasPrefix andb] in Ei.
    rewrite andb_true_r in Ei.
    destruct (Ascii.eqb d "<"%char) eqn:Ed; [discriminate|].
    apply Ascii.eqb_neq in Ed. intros [H|H]; [congruence|].
    now apply IHs.
Qed.


Lemma splitBuffer_sum (p : XmlStreamParser) :
  fst (splitBufferForPartialTag p) ++ snd (splitBufferForPartialTag p)
  = buffer p.
Proof.
  unfold splitBufferForPartialTag.
  destruct (strings.LastIndex (buffer p) ["<"%char]) as [lastLt|];
    [|apply List.app_nil_r].
  destruct (isPossibleToolTagPrefix p (skipn lastLt (buffer p)));
    [apply firstn_skipn | apply List.app_nil_r].
Qed.

End GuardSpec.

(** X7.  [splitBufferForPartialTag] loses no byte: what it emits followed by
    what it keeps is the buffer.  What it keeps is empty, or is the part of
    the buffer from its last [<] on, and then holds no other [<] and is a
    prefix of the opening or of the closing form of a known name; a buffer
    without [<] is emitted whole. *)
Theorem splitBufferForPartialTag_spec (p : XmlStreamParser) :
  fst (splitBufferForPartialTag p) ++ snd (splitBufferForPartialTag p)
  = buffer p
  /\ (snd (splitBufferForPartialTag p) = []
      \/ exists rest,
          snd (splitBufferForPartialTag p) = "<"%char :: rest
          /\ no_lt rest
          /\ partial_tag
               (with_buffer p (snd (splitBufferForPartialTag p))))
  /\ (no_lt (buffer p) -> splitBufferForPartialTag p = (buffer p, [])).
Proof.
  unfold splitBufferForPartialTag.
  destruct (strings.LastIndex (buffer p) ["<"%char]) as [lastLt|] eqn:El.
  - destruct (LastIndex_lt_Some _ _ El) as (a & rest & Hb & Ha & Hr).
    assert (Hsk : skipn lastLt (buffer p) = "<"%char :: rest)
      by (rewrite Hb, <- Ha; apply skipn_app_length).
    destruct (isPossibleToolTagPrefix p (skipn lastLt (buffer p))) eqn:E.
    + cbn [fst snd]. split; [apply firstn_skipn|]. split.
      * right. exists rest. split; [exact Hsk|]. split; [exact Hr|].
        destruct (no_tag_invariant p) as [H|[H|H]].
        -- unfold splitBufferForPartialTag in H. rewrite El, E in H.
           cbn [snd with_buffer buffer] in H. congruence.
        -- unfold splitBufferForPartialTag in H. rewrite El, E in H.
           cbn [snd] in H. destruct H as (n & _ & _ & _).
           unfold isPossibleToolTagPrefix in E.
           rewrite Hsk in E. cbn [strings.HasPrefix negb] in E.
           rewrite Ascii.eqb_refl in E. cbn [andb negb] in E.
           apply existsb_exists in E as (m & Hm & Hp).
           apply orb_true_iff in Hp. split; [now rewrite Hsk|].
           exists m. rewrite Hsk. auto.
        -- unfold splitBufferForPartialTag in H. now rewrite El, E in H.
      * intros Hno. exfalso. apply Hno. rewrite Hb. apply in_app_iff.
        right. now left.
    + cbn [fst snd]. split; [apply List.app_nil_r|]. split; [now left|].
      reflexivity.
  - cbn [fst snd]. split; [apply List.app_nil_r|]. split; [now left|].
    reflexivity.
Qed.

(** ** What a push does to the bytes, the names and the counter *)

Section PushAccounting.

Lemma TryParse_counter (xml name : gostring) (ctr : Z)
  (r : option McpToolCall) (ctr' : Z) :
  TryParseMcpToolCallXml xml name ctr = Done (r, ctr') ->
  match r with
  | Some call => Name call = name /\ ctr' = AddUint64 ctr 1
  | None => ctr' = ctr
  end.
Proof.
  unfold TryParseMcpToolCallXml, MakeToolUseID.
  destruct (is_empty name || is_empty xml); [intros [= <- <-]; reflexivity|].
  destruct (regexp.openPattern_FindStringIndex name xml) as [[o1 o2]|];
    [|intros [= <- <-]; reflexivity].
  destruct (regexp.closePattern_FindStringIndex name xml) as [[c1 c2]|];
    [|intros [= <- <-]; reflexivity].
  destruct (slice xml o2 c1) as [inner| |]; cbn [bind]; try discriminate.
  destruct (is_empty (strings.TrimSpace inner)).
  - intros [= <- <-]. split; reflexivity.
  - destruct (json.Unmarshal (strings.TrimSpace inner)).
    + intros [= <- <-]. split; reflexivity.
    + intros [= <- <-]. reflexivity.
Qed.

Lemma is_text_text (t : gostring) : is_text (text_result t) = true.
Proof. reflexivity. Qed.

Lemma is_text_tool (n : gostring) (i : json.GoMap) :
  is_text (tool_result n i) = false.
Proof. reflexivity. Qed.

Lemma tool_segments_app (a b : list ParseResult) :
  tool_segments (a ++ b) = tool_segments a ++ tool_segments b.
Proof. apply filter_app. Qed.

Lemma firstn_nonempty (n : nat) (s : gostring) :
  0 < n -> s <> [] -> firstn n s <> [].
Proof. destruct n, s; simpl; intros; try lia; congruence. Qed.

(** One statement for the whole loop: the segments added to [results], the
    spans of the buffer they stand for, the names and the counter. *)
Lemma PushText_loop_accounts (fuel : nat) :
  forall (p : XmlStreamParser) (ctr : Z) (results out : list ParseResult)
         (p' : XmlStreamParser) (ctr' : Z),
    PushText_loop fuel p ctr results = Done (out, p', ctr') ->
    exists more spans,
      out = results ++ more
      /\ Forall2 span_of more spans
      /\ concat spans ++ buffer p' = buffer p
      /\ Forall (well_formed_segment (toolNames p)) more
      /\ toolNames p' = toolNames p
      /\ ctr' = Nat.iter (length (tool_segments more))
                  (fun c => AddUint64 c 1) ctr.
Proof.
  induction fuel as [|fuel IH]; intros p ctr results out p' ctr' H;
    [discriminate|].
  cbn [PushText_loop] in H.
  assert (Hno_tag :
    (let (emit, keep) := splitBufferForPartialTag p in
     Done (if is_empty emit then results else results ++ [text_result emit],
           with_buffer p keep, ctr)) = Done (out, p', ctr') ->
    exists more spans,
      out = results ++ more
      /\ Forall2 span_of more spans
      /\ concat spans ++ buffer p' = buffer p
      /\ Forall (well_formed_segment (toolNames p)) more
      /\ toolNames p' = toolNames p
      /\ ctr' = Nat.iter (length (tool_segments more))
                  (fun c => AddUint64 c 1) ctr).
  { clear H IH. intros H.
    pose proof (splitBuffer_sum p) as Hsum.
    destruct (splitBufferForPartialTag p) as [emit keep].
    cbn [fst snd] in Hsum. injection H as <- <- <-.
    destruct emit as [|e emit].
    - exists [], []. cbn [is_empty]. rewrite List.app_nil_r.
      repeat split; auto.
    - exists [text_result (e :: emit)], [e :: emit]. cbn [is_empty].
      repeat split; auto.
      + constructor; [reflexivity|constructor].
      + cbn [concat with_buffer buffer]. now rewrite List.app_nil_r.
      + constructor; [|constructor]. left. exists (e :: emit).
        split; [discriminate|reflexivity]. }
  pose proof (findNextToolStartIndex_accepted p) as Hloc.
  destruct (findNextToolStartIndex p) as [[index name]|]; [|now apply Hno_tag].
  destruct (is_empty name) eqn:En; [now apply Hno_tag|]. clear Hno_tag.
  apply is_empty_false in En.
  destruct (Hloc index name eq_refl) as (Hin & Hidx & _).
  cbn [fst snd] in Hin, Hidx.
  destruct (Index_Some _ _ _ Hidx) as (pre & post & Hbuf & Hpre).
  (* the prefix text and the buffer after it *)
  set (results1 := if 0 <? index
                   then results ++ [text_result (firstn index (buffer p))]
                   else results) in H.
  set (p1 := if 0 <? index then with_buffer p (skipn index (buffer p))
             else p) in H.
  assert (Hp1 : exists lead lspans,
            results1 = results ++ lead
            /\ Forall2 span_of lead lspans
            /\ concat lspans ++ buffer p1 = buffer p
            /\ Forall (well_formed_segment (toolNames p)) lead
            /\ toolNames p1 = toolNames p
            /\ tool_segments lead = []).
  { subst results1 p1. destruct (0 <? index) eqn:E0.
    - apply Nat.ltb_lt in E0.
      exists [text_result (firstn index (buffer p))],
             [firstn index (buffer p)].
      repeat split; auto.
      + constructor; [reflexivity|constructor].
      + cbn [concat with_buffer buffer]. rewrite List.app_nil_r.
        apply firstn_skipn.
      + constructor; [|constructor]. left. eexists. split; [|reflexivity].
        apply firstn_nonempty; [exact E0|].
        rewrite Hbuf. destruct pre; simpl in *; [lia|discriminate].
    - exists [], []. rewrite List.app_nil_r. repeat split; auto. }
  destruct Hp1 as (lead & lspans & Hr1 & Hl2 & Hlsum & Hlwf & Hln & Hlt).
  clearbody results1 p1.
  pose proof (findCloseTagEndIndex_bounds p1 name) as Hce.
  destruct (findCloseTagEndIndex p1 name) as [closeEnd|].
  - specialize (Hce closeEnd eq_refl).
    set (xml := firstn closeEnd (buffer p1)) in *.
    assert (Hxml : xml <> []).
    { subst xml. apply firstn_nonempty; [lia|].
      destruct (buffer p1); simpl in *; [lia|discriminate]. }
    destruct (TryParseMcpToolCallXml xml name ctr) as [[r c1]| |] eqn:Et;
      cbn [bind] in H; try discriminate.
    pose proof (TryParse_counter _ _ _ _ _ Et) as Hc.
    destruct r as [parsed|].
    + destruct Hc as [Hname ->].
      apply IH in H as (more & spans & -> & H2 & Hsum & Hwf & Hn & ->).
      exists (lead ++ tool_result (Name parsed) (Input parsed) :: more),
             (lspans ++ xml :: spans).
      cbn [with_buffer buffer toolNames] in *.
      repeat split.
      * rewrite Hr1, <- !app_assoc. reflexivity.
      * apply Forall2_app; [exact Hl2|]. constructor; [|exact H2].
        unfold span_of. rewrite is_text_tool. cbn [tool_result ResultName
          ResultInput]. exists ctr, (AddUint64 ctr 1), parsed.
        rewrite Hname. split; [exact Et|reflexivity].
      * rewrite concat_app. cbn [concat]. rewrite <- Hlsum, <- !app_assoc.
        f_equal. rewrite Hsum. apply firstn_skipn.
      * apply Forall_app. split; [exact Hlwf|]. constructor.
        -- right. exists name, (Input parsed). rewrite Hname. auto.
        -- now rewrite <- Hln.
      * congruence.
      * rewrite tool_segments_app, Hlt. cbn [app tool_segments filter].
        rewrite is_text_tool. cbn [negb length].
        fold (tool_segments more).
        rewrite Nat.iter_succ_r. reflexivity.
    + subst c1.
      apply IH in H as (more & spans & -> & H2 & Hsum & Hwf & Hn & ->).
      exists (lead ++ text_result xml :: more), (lspans ++ xml :: spans).
      cbn [with_buffer buffer toolNames] in *.
      repeat split.
      * rewrite Hr1, <- !app_assoc. reflexivity.
      * apply Forall2_app; [exact Hl2|]. constructor; [|exact H2].
        reflexivity.
      * rewrite concat_app. cbn [concat]. rewrite <- Hlsum, <- !app_assoc.
        f_equal. rewrite Hsum. apply firstn_skipn.
      * apply Forall_app. split; [exact Hlwf|]. constructor.
        -- left. exists xml. auto.
        -- now rewrite <- Hln.
      * congruence.
      * rewrite tool_segments_app, Hlt. cbn [app tool_segments filter].
        rewrite is_text_text. cbn [negb]. reflexivity.
  - injection H as <- <- <-. exists lead, lspans.
    rewrite Hlt. repeat split; auto.
Qed.

Lemma PushText_accounts (p : XmlStreamParser) (text : gostring) (ctr : Z)
  (out : list ParseResult) (p' : XmlStreamParser) (ctr' : Z) :
  PushText p text ctr = Done (out, p', ctr') ->
  exists spans,
    Forall2 span_of out spans
    /\ concat spans ++ buffer p' = buffer p ++ text
    /\ Forall (well_formed_segment (toolNames p)) out
    /\ toolNames p' = toolNames p
    /\ ctr' = Nat.iter (length (tool_segments out))
                (fun c => AddUint64 c 1) ctr.
Proof.
  unfold PushText. destruct (is_empty text) eqn:E.
  - intros [= <- <- <-]. apply is_empty_true in E. subst text.
    exists []. repeat split; try constructor.
    simpl. now rewrite List.app_nil_r.
  - intros H.
    apply PushText_loop_accounts in H
      as (more & spans & -> & H2 & Hs & Hwf & Hn & Hc).
    exists spans. repeat split; assumption.
Qed.

End PushAccounting.

(** X8.  A push loses, invents and reorders no byte: the segments it returns
    stand, in order, for consecutive spans of the old buffer followed by the
    pushed text, and what is left of those bytes is the new buffer.  A text
    segment stands for its text; a tool segment stands for a span that
    [TryParseMcpToolCallXml] decodes to the segment's input. *)
Theorem PushText_conserves_bytes (p : XmlStreamParser) (text : gostring)
  (ctr : Z) (out : list ParseResult) (p' : XmlStreamParser) (ctr' : Z) :
  PushText p text ctr = Done (out, p', ctr') ->
  exists spans,
    Forall2 span_of out spans
    /\ concat spans ++ buffer p' = buffer p ++ text.
Proof.
  intros H. apply PushText_accounts in H as (spans & H2 & Hs & _).
  exists spans. split; assumption.
Qed.

Lemma PushText_conserves_bytes_witness :
  exists spans,
    Forall2 span_of
      [text_result (str "a "); tool_result (str "t") (json.make_map [])]
      spans
    /\ concat spans ++ str "<t" = str "a <t>{}</t><t".
Proof.
  apply (PushText_conserves_bytes
           {| toolNames := [str "t"]; buffer := str "a <t>" |}
           (str "{}</t><t") 0%Z
           [text_result (str "a "); tool_result (str "t") (json.make_map [])]
           {| toolNames := [str "t"]; buffer := str "<t" |} 1%Z).
  vm_compute. reflexivity.
Defined.

(** X9.  Every segment a push returns is well formed: a text segment with a
    non-empty text, or a tool segment whose name is one of the parser's
    names and is not empty.  The push leaves the set of names as it was. *)
Theorem PushText_segments_well_formed (p : XmlStreamParser) (text : gostring)
  (ctr : Z) (out : list ParseResult) (p' : XmlStreamParser) (ctr' : Z) :
  PushText p text ctr = Done (out, p', ctr') ->
  Forall (well_formed_segment (toolNames p)) out
  /\ toolNames p' = toolNames p.
Proof.
  intros H. apply PushText_accounts in H as (spans & _ & _ & Hwf & Hn & _).
  split; assumption.
Qed.

Lemma PushText_segments_well_formed_witness :
  Forall (well_formed_segment [str "t"])
    [text_result (str "a "); text_result (str "<t>x</t>");
     tool_result (str "t") (json.make_map []); text_result (str "b")]
  /\ [str "t"] = [str "t"].
Proof.
  apply (PushText_segments_well_formed
           {| toolNames := [str "t"]; buffer := [] |}
           (str "a <t>x</t><t> </t>b<") 0%Z
           [text_result (str "a "); text_result (str "<t>x</t>");
            tool_result (str "t") (json.make_map []); text_result (str "b")]
           {| toolNames := [str "t"]; buffer := str "<" |} 1%Z).
  vm_compute. reflexivity.
Defined.

(** X10.  A push advances the identifier counter once for each tool segment
    it returns, and not otherwise: text, malformed elements and retained
    tails consume no identifier. *)
Theorem PushText_counter (p : XmlStreamParser) (text : gostring)
  (ctr : Z) (out : list ParseResult) (p' : XmlStreamParser) (ctr' : Z) :
  PushText p text ctr = Done (out, p', ctr') ->
  ctr' = Nat.iter (length (tool_segments out)) (fun c => AddUint64 c 1) ctr.
Proof.
  intros H. apply PushText_accounts in H as (spans & _ & _ & _ & _ & Hc).
  exact Hc.
Qed.

Lemma PushText_counter_witness :
  2%Z = Nat.iter
          (length (tool_segments
                     [tool_result (str "t") (json.make_map []);
                      text_result (str "<t>x</t>");
                      tool_result (str "t") (json.make_map [])]))
          (fun c => AddUint64 c 1) 0%Z.
Proof.
  apply (PushText_counter
           {| toolNames := [str "t"]; buffer := [] |}
           (str "<t>{}</t><t>x</t><t></t>") 0%Z
           [tool_result (str "t") (json.make_map []);
            text_result (str "<t>x</t>");
            tool_result (str "t") (json.make_map [])]
           {| toolNames := [str "t"]; buffer := [] |} 2%Z).
  vm_compute. reflexivity.
Defined.

(** ** One element, pushed in pieces *)

Section WaitingElement.






Variables (names : list gostring) (name inner : gostring).
Hypothesis Hnames : Forall tag_name names.
Hypothesis Hin : In name names.
Hypothesis Hinner :
  strings.Index inner ("<"%char :: "/"%char :: name) = None.





End WaitingElement.



(** ** Whole streams *)

Section Streams.

Lemma push_chunks_accounts (chunks : list gostring) :
  forall (p : XmlStreamParser) (ctr : Z) (out : list ParseResult)
         (p' : XmlStreamParser) (ctr' : Z),
    push_chunks p chunks ctr = Done (out, p', ctr') ->
    exists spans,
      Forall2 span_of out spans
      /\ concat spans ++ buffer p' = buffer p ++ concat chunks
      /\ toolNames p' = toolNames p.
Proof.
  induction chunks as [|c chunks IH]; intros p ctr out p' ctr' H.
  - injection H as <- <- <-. exists []. repeat split; [constructor|].
    simpl. now rewrite List.app_nil_r.
  - cbn [push_chunks] in H.
    destruct (PushText p c ctr) as [[[out1 p1] ctr1]| |] eqn:E1;
      cbn [bind] in H; try discriminate.
    destruct (push_chunks p1 chunks ctr1) as [[[out2 p2] ctr2]| |] eqn:E2;
      cbn [bind] in H; try discriminate.
    injection H as <- <- <-.
    apply PushText_accounts in E1 as (s1 & Ha & Hs1 & _ & Hn1 & _).
    apply IH in E2 as (s2 & Hb & Hs2 & Hn2).
    exists (s1 ++ s2). repeat split.
    + now apply Forall2_app.
    + rewrite concat_app, <- app_assoc, Hs2, app_assoc, Hs1.
      cbn [concat]. now rewrite <- app_assoc.
    + congruence.
Qed.

Lemma findNext_no_lt (p : XmlStreamParser) :
  no_lt (buffer p) -> findNextToolStartIndex p = None.
Proof.
  intros H. unfold findNextToolStartIndex.
  induction (toolNames p) as [|n names IH]; [reflexivity|].
  cbn [fold_left]. unfold locate_step at 2.
  now rewrite (Index_no_lt _ n H).
Qed.

Lemma split_no_lt (p : XmlStreamParser) :
  no_lt (buffer p) -> splitBufferForPartialTag p = (buffer p, []).
Proof.
  intros H. unfold splitBufferForPartialTag.
  destruct (strings.LastIndex (buffer p) ["<"%char]) as [lastLt|] eqn:El;
    [|reflexivity].
  exfalso. apply LastIndex_lt_Some in El as (a & rest & E & _).
  apply H. rewrite E. apply in_app_iff. right. now left.
Qed.

Lemma PushText_plain (names : list gostring) (text : gostring) (ctr : Z) :
  no_lt text ->
  PushText {| toolNames := names; buffer := [] |} text ctr
  = Done (if is_empty text then [] else [text_result text],
          {| toolNames := names; buffer := [] |}, ctr).
Proof.
  intros H. unfold PushText. destruct text as [|c text]; [reflexivity|].
  cbn [is_empty with_buffer toolNames buffer app PushText_loop].
  rewrite findNext_no_lt by exact H.
  rewrite split_no_lt by exact H. reflexivity.
Qed.

End Streams.

(** X12.  A stream that ends without a panic loses, invents and reorders no
    byte: the segments of its pushes and of the closing [Flush] stand, in
    order, for spans that put together are the chunks put together. *)
Theorem run_stream_conserves_bytes (names chunks : list gostring) (ctr : Z)
  (out : list ParseResult) :
  run_stream names chunks ctr = Done out ->
  exists spans, Forall2 span_of out spans /\ concat spans = concat chunks.
Proof.
  unfold run_stream.
  destruct (push_chunks (NewXmlStreamParser names) chunks ctr)
    as [[[out1 p1] ctr1]| |] eqn:E; cbn [bind]; try discriminate.
  intros [= <-].
  apply push_chunks_accounts in E as (spans & H2 & Hs & _).
  cbn [NewXmlStreamParser buffer app] in Hs.
  unfold Flush. destruct (buffer p1) as [|c b] eqn:Eb.
  - cbn [is_empty fst]. exists spans. rewrite !List.app_nil_r in *.
    split; assumption.
  - cbn [is_empty fst]. exists (spans ++ [c :: b]). split.
    + apply Forall2_app; [exact H2|]. constructor; [reflexivity|constructor].
    + rewrite concat_app. cbn [concat]. now rewrite List.app_nil_r.
Qed.

Lemma run_stream_conserves_bytes_witness :
  exists spans,
    Forall2 span_of
      [text_result (str "a "); tool_result (str "t") (json.make_map []);
       text_result (str "<t")]
      spans
    /\ concat spans = concat [str "a <"; str "t>{}</t"; str "><t"].
Proof.
  apply (run_stream_conserves_bytes [str "t"]
           [str "a <"; str "t>{}</t"; str "><t"] 0%Z).
  vm_compute. reflexivity.
Defined.

(** X13.  Text without [<] is never held back and never changed: a stream
    whose chunks hold no [<] gives one text segment for each chunk that is
    not empty, with the chunk as its text, in order, and [Flush] adds
    nothing; no identifier is consumed. *)
Theorem plain_stream_passes_through (names chunks : list gostring) (ctr : Z) :
  no_lt (concat chunks) ->
  push_chunks (NewXmlStreamParser names) chunks ctr
  = Done (map text_result (filter (fun c => negb (is_empty c)) chunks),
          NewXmlStreamParser names, ctr)
  /\ run_stream names chunks ctr
     = Done (map text_result (filter (fun c => negb (is_empty c)) chunks)).
Proof.
  intros H.
  assert (E : push_chunks (NewXmlStreamParser names) chunks ctr
              = Done (map text_result
                        (filter (fun c => negb (is_empty c)) chunks),
                      NewXmlStreamParser names, ctr)).
  { rewrite New_parser. generalize (toolNames (NewXmlStreamParser names)).
    intros ns. induction chunks as [|c chunks IH]; [reflexivity|].
    cbn [concat] in H. cbn [push_chunks].
    rewrite PushText_plain
      by (intros Hc; apply H; apply in_app_iff; now left).
    cbn [bind]. rewrite IH
      by (intros Hc; apply H; apply in_app_iff; now right).
    cbn [bind filter]. destruct c; reflexivity. }
  split; [exact E|]. unfold run_stream. rewrite E. cbn [bind].
  unfold Flush. cbn [NewXmlStreamParser buffer is_empty fst].
  now rewrite List.app_nil_r.
Qed.

Lemma plain_stream_passes_through_witness :
  run_stream [str "t"] [str "a > b"; []; str "/t>"] 5%Z
  = Done [text_result (str "a > b"); text_result (str "/t>")].
Proof.
  apply (proj2 (plain_stream_passes_through [str "t"]
                  [str "a > b"; []; str "/t>"] 5%Z
                  ltac:(vm_compute; intuition discriminate))).
Defined.

(** X14.  Over the life of a parser its names do not change: in every state
    reached from [NewXmlStreamParser names] by pushes, the names are those
    the constructor kept, which are the non-empty ones of [names], each
    once. *)
Theorem reachable_names (names : list gostring) (p : XmlStreamParser) :
  reachable names p ->
  toolNames p = toolNames (NewXmlStreamParser names)
  /\ NoDup (toolNames p)
  /\ forall name, In name (toolNames p) <-> In name names /\ name <> [].
Proof.
  intros H.
  assert (E : toolNames p = toolNames (NewXmlStreamParser names)).
  { induction H as [|p text ctr out p' ctr' _ IH Hp]; [reflexivity|].
    apply PushText_accounts in Hp as (_ & _ & _ & _ & Hn & _). congruence. }
  split; [exact E|]. rewrite E. split.
  - apply NoDup_nodup.
  - apply New_names_In.
Qed.

Lemma reachable_names_witness :
  toolNames {| toolNames := [str "b"; str "a"]; buffer := str "<a" |}
  = toolNames (NewXmlStreamParser [str "a"; []; str "b"; str "a"]).
Proof.
  apply (proj1 (reachable_names [str "a"; []; str "b"; str "a"]
                  {| toolNames := [str "b"; str "a"]; buffer := str "<a" |}
                  ltac:(apply (reach_push _ _ (str "x<a") 0%Z
                                 [text_result (str "x")] _ 0%Z
                                 (reach_new _)); vm_compute; reflexivity))).
Defined.

(** ** The system prompt *)

Section PromptFacts.

Lemma prompt_step_app (lines : list gostring) (tool : McpTool.t) :
  prompt_step lines tool = lines ++ prompt_step [] tool.
Proof.
  unfold prompt_step.
  destruct (negb (IsMcpToolName (McpTool.Name tool)));
    [now rewrite List.app_nil_r|].
  destruct (negb (is_empty (McpTool.InputSchema tool)));
    cbn [app]; now rewrite <- ?app_assoc.
Qed.

Lemma prompt_fold (tools : list McpTool.t) (lines : list gostring) :
  fold_left prompt_step tools lines
  = lines ++ flat_map (prompt_step []) tools.
Proof.
  revert lines. induction tools as [|t tools IH]; intros lines.
  - cbn. now rewrite List.app_nil_r.
  - cbn [fold_left flat_map]. rewrite IH, (prompt_step_app lines t).
    now rewrite <- app_assoc.
Qed.

Lemma prompt_step_skip (tool : McpTool.t) :
  IsMcpToolName (McpTool.Name tool) = false -> prompt_step [] tool = [].
Proof. unfold prompt_step. now intros ->. Qed.

Lemma Join_cons_nonempty (a : gostring) (rest : list gostring)
  (sep : gostring) :
  a <> [] -> strings.Join (a :: rest) sep <> [].
Proof.
  intros Ha. cbn [strings.Join]. destruct rest; [exact Ha|].
  destruct a; [contradiction|discriminate].
Qed.

Lemma Join_cons_concat (a : gostring) (l : list gostring) (sep : gostring) :
  strings.Join (a :: l) sep = a ++ concat (map (app sep) l).
Proof.
  revert a. induction l as [|b l IH]; intros a.
  - cbn. now rewrite List.app_nil_r.
  - change (strings.Join (a :: b :: l) sep)
      with (a ++ sep ++ strings.Join (b :: l) sep).
    rewrite IH. cbn [map concat]. now rewrite <- !app_assoc.
Qed.

Lemma Join_app (l1 l2 : list gostring) (sep : gostring) :
  l1 <> [] ->
  strings.Join (l1 ++ l2) sep
  = strings.Join l1 sep ++ concat (map (app sep) l2).
Proof.
  destruct l1 as [|a l1]; intros H; [contradiction|].
  cbn [app]. rewrite !Join_cons_concat, map_app, concat_app.
  now rewrite <- app_assoc.
Qed.

Lemma prompt_header_nonempty : prompt_header <> [].
Proof. discriminate. Qed.

End PromptFacts.

(** X15.  [BuildMcpXmlSystemPrompt] returns the empty string for the empty
    list and for no other list: a list that holds tools, even if none of
    them is an MCP tool, gives a prompt. *)
Theorem BuildMcpXmlSystemPrompt_empty_iff (mcpTools : list McpTool.t) :
  BuildMcpXmlSystemPrompt mcpTools = [] <-> mcpTools = [].
Proof.
  unfold BuildMcpXmlSystemPrompt. split.
  - destruct mcpTools as [|t tools]; [reflexivity|].
    cbn [length Nat.eqb]. rewrite prompt_fold. intros H. exfalso.
    revert H. unfold prompt_header. cbn [app].
    apply Join_cons_nonempty. discriminate.
  - now intros ->.
Qed.

(** X16.  A tool whose name does not start with [mcp__] leaves no line in
    the prompt, but it counts for the emptiness test: the prompt of a list
    that holds such a tool is the header and the lines of the other tools,
    also when there is no other tool. *)
Theorem BuildMcpXmlSystemPrompt_skips_other_tools
  (before after : list McpTool.t) (tool : McpTool.t) :
  IsMcpToolName (McpTool.Name tool) = false ->
  BuildMcpXmlSystemPrompt (before ++ tool :: after)
  = strings.Join
      (prompt_header ++ flat_map (prompt_step []) (before ++ after))
      ["010"%char].
Proof.
  intros H. unfold BuildMcpXmlSystemPrompt.
  replace (length (before ++ tool :: after) =? 0) with false
    by (symmetry; apply Nat.eqb_neq; rewrite length_app; simpl; lia).
  rewrite prompt_fold, !flat_map_app. cbn [flat_map].
  now rewrite (prompt_step_skip tool H).
Qed.

Lemma BuildMcpXmlSystemPrompt_skips_other_tools_witness :
  BuildMcpXmlSystemPrompt
    ([] ++ [{| McpTool.Name := str "shell"; McpTool.Description := str "run";
               McpTool.InputSchema := str "{}" |}])
  = strings.Join (prompt_header ++ flat_map (prompt_step []) ([] ++ []))
      ["010"%char].
Proof.
  apply (BuildMcpXmlSystemPrompt_skips_other_tools [] []
           {| McpTool.Name := str "shell"; McpTool.Description := str "run";
              McpTool.InputSchema := str "{}" |} eq_refl).
Defined.

(** X17.  The prompt lists the MCP tools in the order of the list, after the
    header: adding tools to a list that is not empty adds their lines, each
    after a newline, and changes nothing before them.  The lines of a tool
    are [- name], with [: description] when there is one, and
    [  input_schema: schema] when there is one. *)
Theorem BuildMcpXmlSystemPrompt_app (tools more : list McpTool.t) :
  tools <> [] ->
  BuildMcpXmlSystemPrompt (tools ++ more)
  = BuildMcpXmlSystemPrompt tools
    ++ concat (map (app ["010"%char]) (flat_map (prompt_step []) more))
  /\ forall name desc schema,
       prompt_step []
         {| McpTool.Name := str "mcp__" ++ name; McpTool.Description := desc;
            McpTool.InputSchema := schema |}
       = (str "- mcp__" ++ name
          ++ (if is_empty desc then [] else str ": " ++ desc))
         :: (if is_empty schema then []
             else [str "  input_schema: " ++ schema]).
Proof.
  intros H. split.
  - unfold BuildMcpXmlSystemPrompt.
    replace (length (tools ++ more) =? 0) with false
      by (symmetry; apply Nat.eqb_neq; rewrite length_app;
          destruct tools; simpl; [contradiction|lia]).
    replace (length tools =? 0) with false
      by (symmetry; apply Nat.eqb_neq; destruct tools; simpl;
          [contradiction|lia]).
    rewrite !prompt_fold, flat_map_app, app_assoc.
    apply Join_app. discriminate.
  - intros name desc schema. unfold prompt_step.
    cbn [McpTool.Name McpTool.Description McpTool.InputSchema].
    replace (IsMcpToolName (str "mcp__" ++ name)) with true
      by (symmetry; apply HasPrefix_app).
    cbn [negb]. destruct (is_empty desc), (is_empty schema); cbn [negb app];
      rewrite ?List.app_nil_r; reflexivity.
Qed.

Lemma BuildMcpXmlSystemPrompt_app_witness :
  BuildMcpXmlSystemPrompt
    ([{| McpTool.Name := str "mcp__a"; McpTool.Description := [];
         McpTool.InputSchema := [] |}]
     ++ [{| McpTool.Name := str "mcp__b"; McpTool.Description := str "d";
            McpTool.InputSchema := str "{}" |}])
  = BuildMcpXmlSystemPrompt
      [{| McpTool.Name := str "mcp__a"; McpTool.Description := [];
          McpTool.InputSchema := [] |}]
    ++ "010"%char :: str "- mcp__b: d"
    ++ "010"%char :: str "  input_schema: {}".
Proof.
  apply (proj1 (BuildMcpXmlSystemPrompt_app
                  [{| McpTool.Name := str "mcp__a"; McpTool.Description := [];
                      McpTool.InputSchema := [] |}]
                  [{| McpTool.Name := str "mcp__b";
                      McpTool.Description := str "d";
                      McpTool.InputSchema := str "{}" |}]
                  ltac:(discriminate))).
Defined.

(** ** The result element *)

Section MarshalFacts.

Variable short_bf : bool.

Lemma high_payload_byte (b : ascii) :
  (N_of_ascii b <? 128)%N = false -> payload_byte b = true.
Proof.
  destruct b as [[] [] [] [] [] [] [] []]; intros H;
    solve [reflexivity | discriminate H].
Qed.

Lemma in_range_high (lo hi : N) (c : ascii) :
  (128 <=? lo)%N = true -> json.in_range lo hi c = true ->
  (N_of_ascii c <? 128)%N = false.
Proof.
  unfold json.in_range. intros Hlo H. apply andb_true_iff in H as [H _].
  apply N.leb_le in Hlo, H. apply N.ltb_ge. lia.
Qed.

Lemma cont_high (c : ascii) :
  json.cont c = true -> (N_of_ascii c <? 128)%N = false.
Proof. apply in_range_high. reflexivity. Qed.

Lemma rune2_high (b0 b1 : ascii) :
  json.rune2 b0 b1 = true -> (N_of_ascii b1 <? 128)%N = false.
Proof.
  unfold json.rune2. intros H. apply andb_true_iff in H as [_ H].
  now apply cont_high.
Qed.

Lemma rune3_high (b0 b1 b2 : ascii) :
  json.rune3 b0 b1 b2 = true ->
  (N_of_ascii b1 <? 128)%N = false /\ (N_of_ascii b2 <? 128)%N = false.
Proof.
  unfold json.rune3. intros H. apply andb_true_iff in H as [H H2].
  split; [|now apply cont_high].
  repeat (apply orb_true_iff in H as [H|H]);
    apply andb_true_iff in H as [_ H];
    revert H; apply in_range_high; reflexivity.
Qed.

Lemma rune4_high (b0 b1 b2 b3 : ascii) :
  json.rune4 b0 b1 b2 b3 = true ->
  (N_of_ascii b1 <? 128)%N = false /\ (N_of_ascii b2 <? 128)%N = false
  /\ (N_of_ascii b3 <? 128)%N = false.
Proof.
  unfold json.rune4. intros H. apply andb_true_iff in H as [H H3].
  apply andb_true_iff in H as [H H2].
  split; [|split; now apply cont_high].
  repeat (apply orb_true_iff in H as [H|H]);
    apply andb_true_iff in H as [_ H];
    revert H; apply in_range_high; reflexivity.
Qed.

Lemma line_separator_digit (b0 b1 b2 : ascii) :
  json.line_separator b0 b1 b2 = true ->
  json.hex_at (N_of_ascii b2 mod 16) = "8"%char
  \/ json.hex_at (N_of_ascii b2 mod 16) = "9"%char.
Proof.
  unfold json.line_separator. intros H. apply andb_true_iff in H as [_ H].
  revert H. destruct b2 as [[] [] [] [] [] [] [] []]; intros H;
    solve [discriminate H | now left | now right].
Qed.

(** *** The bytes the encoder writes *)

Lemma escape_ascii_payload (b : ascii) :
  (N_of_ascii b <? 128)%N = true ->
  forallb payload_byte (json.escape_ascii short_bf b) = true.
Proof.
  destruct short_bf; destruct b as [[] [] [] [] [] [] [] []]; intros H;
    solve [reflexivity | discriminate H].
Qed.

Lemma escape_payload_le (n : nat) :
  forall src, length src <= n ->
              forallb payload_byte (json.escape short_bf src) = true.
Proof.
  induction n as [|n IH]; intros src L.
  - destruct src; [reflexivity | simpl in L; lia].
  - destruct src as [|b0 r1]; [reflexivity|].
    cbn [length] in L. cbn [json.escape].
    assert (Hinv : forallb payload_byte
                     ("\"%char :: str "ufffd" ++ json.escape short_bf r1)
                   = true).
    { change ("\"%char :: str "ufffd" ++ json.escape short_bf r1)
        with (("\"%char :: str "ufffd") ++ json.escape short_bf r1).
      rewrite forallb_app, IH by lia. reflexivity. }
    destruct (N_of_ascii b0 <? 128)%N eqn:E0.
    + rewrite forallb_app, escape_ascii_payload, IH by (assumption || lia).
      reflexivity.
    + apply high_payload_byte in E0.
      destruct r1 as [|b1 r2]; [exact Hinv|].
      destruct (json.rune2 b0 b1) eqn:E2.
      { apply rune2_high, high_payload_byte in E2.
        cbn [forallb]. rewrite E0, E2, IH by (simpl in L; lia). reflexivity. }
      destruct r2 as [|b2 r3]; [exact Hinv|].
      destruct (json.rune3 b0 b1 b2) eqn:E3.
      { destruct (json.line_separator b0 b1 b2) eqn:Els.
        - apply line_separator_digit in Els.
          change (str "\u202" ++ json.hex_at (N_of_ascii b2 mod 16)
                  :: json.escape short_bf r3)
            with (str "\u202"
                  ++ json.hex_at (N_of_ascii b2 mod 16)
                  :: json.escape short_bf r3).
          rewrite forallb_app. cbn [forallb].
          rewrite IH by (simpl in L; lia).
          destruct Els as [-> | ->]; reflexivity.
        - apply rune3_high in E3 as [H1 H2].
          apply high_payload_byte in H1, H2.
          cbn [forallb]. rewrite E0, H1, H2, IH by (simpl in L; lia).
          reflexivity. }
      destruct r3 as [|b3 r4]; [exact Hinv|].
      destruct (json.rune4 b0 b1 b2 b3) eqn:E4; [|exact Hinv].
      apply rune4_high in E4 as (H1 & H2 & H3).
      apply high_payload_byte in H1, H2, H3.
      cbn [forallb]. rewrite E0, H1, H2, H3, IH by (simpl in L; lia).
      reflexivity.
Qed.

Lemma escape_payload (src : gostring) :
  forallb payload_byte (json.escape short_bf src) = true.
Proof. apply (escape_payload_le (length src)). lia. Qed.

Lemma appendString_payload (src : gostring) :
  forallb payload_byte (json.appendString short_bf src) = true.
Proof.
  unfold json.appendString. cbn [forallb].
  rewrite forallb_app, escape_payload. reflexivity.
Qed.

(** *** The scanner reads back what the encoder writes *)














Lemma escape_safe_ascii (src : gostring) :
  forallb json.htmlSafeSet src = true -> json.escape short_bf src = src.
Proof.
  induction src as [|b src IH]; [reflexivity|]. cbn [forallb].
  intros H. apply andb_true_iff in H as [Hb Hs]. cbn [json.escape].
  assert (L : (N_of_ascii b <? 128)%N = true).
  { pose proof Hb as Hr. unfold json.htmlSafeSet in Hr.
    do 5 (apply andb_true_iff in Hr as [Hr _]).
    apply andb_true_iff in Hr as [_ Hr]. exact Hr. }
  rewrite L. unfold json.escape_ascii. rewrite Hb, (IH Hs). reflexivity.
Qed.

Lemma appendString_quoted (src : gostring) :
  forallb json.htmlSafeSet src = true ->
  json.appendString short_bf src = quoted src.
Proof.
  intros H. unfold json.appendString, quoted.
  now rewrite escape_safe_ascii.
Qed.

(** The payload of the result element, member by member. *)
Lemma Marshal_result (toolName toolUseID result : gostring) (isError : bool) :
  json.Marshal short_bf
    [ (str "name", json.AString toolName);
      (str "tool_use_id", json.AString toolUseID);
      (str "result", json.AString result);
      (str "is_error", json.ABool isError) ]
  = "{"%char
    :: json.appendString short_bf (str "is_error") ++ ":"%char
    :: json.marshal_any short_bf (json.ABool isError) ++ ","%char
    :: json.appendString short_bf (str "name") ++ ":"%char
    :: json.appendString short_bf toolName ++ ","%char
    :: json.appendString short_bf (str "result") ++ ":"%char
    :: json.appendString short_bf result ++ ","%char
    :: json.appendString short_bf (str "tool_use_id") ++ ":"%char
    :: json.appendString short_bf toolUseID ++ ["}"%char].
Proof.
  unfold json.Marshal.
  change (json.sort_entries
            [ (str "name", json.AString toolName);
              (str "tool_use_id", json.AString toolUseID);
              (str "result", json.AString result);
              (str "is_error", json.ABool isError) ])
    with [ (str "is_error", json.ABool isError);
           (str "name", json.AString toolName);
           (str "result", json.AString result);
           (str "tool_use_id", json.AString toolUseID) ].
  cbn [map strings.Join fst snd json.marshal_any].
  repeat (rewrite <- ?app_assoc; cbn [app]). reflexivity.
Qed.



End MarshalFacts.

(** X18.  Whatever the four arguments hold, [BuildMcpToolResultXml] writes
    one element: the opening tag, a payload, the closing tag; and no byte of
    the payload is a control byte, [<], [>] or [&], so nothing in the
    arguments can close the element early or open another. *)
Theorem BuildMcpToolResultXml_payload_is_safe (short_bf : bool)
  (toolName toolUseID result : gostring) (isError : bool) :
  exists payload,
    BuildMcpToolResultXml short_bf toolName toolUseID result isError
    = str "<mcp_tool_result>" ++ payload ++ str "</mcp_tool_result>"
    /\ forallb payload_byte payload = true
    /\ no_lt payload
    /\ strings.Index payload (str "</mcp_tool_result") = None.
Proof.
  eexists. split; [reflexivity|].
  assert (H : forallb payload_byte
                (json.Marshal short_bf
                   [ (str "name", json.AString toolName);
                     (str "tool_use_id", json.AString toolUseID);
                     (str "result", json.AString result);
                     (str "is_error", json.ABool isError) ]) = true).
  { rewrite Marshal_result. cbn [forallb].
    repeat (rewrite forallb_app, ?appendString_payload; cbn [forallb]).
    destruct isError; reflexivity. }
  assert (N : no_lt
                (json.Marshal short_bf
                   [ (str "name", json.AString toolName);
                     (str "tool_use_id", json.AString toolUseID);
                     (str "result", json.AString result);
                     (str "is_error", json.ABool isError) ])).
  { intros Hin. rewrite forallb_forall in H. apply H in Hin.
    discriminate Hin. }
  split; [exact H|]. split; [exact N|]. now apply Index_no_lt.
Qed.


(** X20.  Ordinary text is carried as it is.  When the three strings hold
    only ASCII bytes from space to DEL without quote, backslash, [&], [<]
    and [>], the result element is the template with the strings put in
    unchanged, the keys in their sorted order, with either toolchain. *)
Theorem BuildMcpToolResultXml_plain (short_bf : bool)
  (toolName toolUseID result : gostring) (isError : bool) :
  forallb json.htmlSafeSet toolName = true ->
  forallb json.htmlSafeSet toolUseID = true ->
  forallb json.htmlSafeSet result = true ->
  BuildMcpToolResultXml short_bf toolName toolUseID result isError
  = str "<mcp_tool_result>{"
    ++ quoted (str "is_error") ++ str ":"
    ++ (if isError then str "true" else str "false") ++ str ","
    ++ quoted (str "name") ++ str ":" ++ quoted toolName ++ str ","
    ++ quoted (str "result") ++ str ":" ++ quoted result ++ str ","
    ++ quoted (str "tool_use_id") ++ str ":" ++ quoted toolUseID
    ++ str "}</mcp_tool_result>".
Proof.
  intros Hn Hi Hr. unfold BuildMcpToolResultXml.
  rewrite Marshal_result.
  rewrite !appendString_quoted by (assumption || reflexivity).
  unfold quoted. destruct isError;
    cbn [json.marshal_any]; repeat (rewrite <- ?app_assoc; cbn [app]);
    reflexivity.
Qed.

Lemma BuildMcpToolResultXml_plain_witness :
  BuildMcpToolResultXml true (str "mcp__fs__read") (str "mcp__fs__read-7")
    (str "exit status 1: no such file") true
  = str "<mcp_tool_result>{"
    ++ quoted (str "is_error") ++ str ":" ++ str "true" ++ str ","
    ++ quoted (str "name") ++ str ":" ++ quoted (str "mcp__fs__read")
    ++ str ","
    ++ quoted (str "result") ++ str ":"
    ++ quoted (str "exit status 1: no such file") ++ str ","
    ++ quoted (str "tool_use_id") ++ str ":"
    ++ quoted (str "mcp__fs__read-7")
    ++ str "}</mcp_tool_result>".
Proof.
  apply (BuildMcpToolResultXml_plain true (str "mcp__fs__read")
           (str "mcp__fs__read-7") (str "exit status 1: no such file") true
           eq_refl eq_refl eq_refl).
Defined.

(** ** When the decoder panics *)

Section DecoderPanic.





End DecoderPanic.


